(** * The node-graph effect-chain editor of glitch-lamp

    A shallow embedding of the chain model of the option page
    (makeNodeId, getDefaultPosition, ensurePositions, normalizeChainData,
    getMaxInputs, getEntryById, connectNodes, removeEffectById, addEffect,
    the effect-select change handlers, clampScale, clientToWorld and the
    wheel handler of setupZoom), with the properties the specification
    states about them; and of the handlers around it (the port clicks, the
    order buttons, the node drag, panning, the zoom slider, the inline
    editor of a numeric option and the chain that loadSettings builds),
    with properties read off the code.

    Conventions of the embedding.
    - The module-level variables of the script ([effectChain],
      [nodeIdCounter], [viewportState], [selectedOutput], the toast that is
      on display) are the fields of one record, [editor], that every
      operation takes and returns.
    - What the script reads from the page and never writes (which elements
      exist, the bounding box of the stage, the effect catalogue, the clock)
      is the record [page].
    - JS numbers are exact rationals ([Q]); array indices and the id counter
      are natural numbers. What is proved of the viewport is therefore
      proved of the arithmetic without rounding; the module [Double] has
      the wheel update on IEEE 754 doubles, to show where rounding tells.
    - None of the statements embedded here can raise (no property is read
      from [undefined]), so the operations are total functions. *)

From Stdlib Require Import QArith Qminmax Qround Lia Ascii.
From Stdlib Require PrimFloat.
From stdpp Require Import base decidable option list strings gmap pretty.

Local Open Scope string_scope.
Local Open Scope nat_scope.

(** ** Values *)

(** The JS values an id, an effect name or an input slot can take.  A hole
    of a sparse array reads as [JUndefined]. *)
Inductive jsval : Type :=
  | JUndefined
  | JNull
  | JStr (s : string).

Global Instance jsval_eq_dec : EqDecision jsval.
Proof. solve_decision. Defined.

Global Instance JStr_inj : Inj (=) (=) JStr.
Proof. by intros s1 s2 [= ->]. Qed.

(** [truthy v] is the JS test [if (v)]; [!v] is its negation. *)
Definition truthy (v : jsval) : bool :=
  match v with
  | JStr s => negb (String.eqb s "")
  | _ => false
  end.

(** The value of one option of a node: bool, number or string. *)
Inductive optval : Type :=
  | OBool (b : bool)
  | ONum (q : Q)
  | OStr (s : string).

(** A point [{x, y}]. *)
Record point : Type := Point { px : Q; py : Q }.

(** An entry of [effectChain], and also an entry of a persisted chain
    before it is normalized: a JS object whose fields may be missing.
    [options = None] and [position = None] are a falsy value. [inputs = None]
    is a value that is not an array: in a persisted entry any such value
    ([normalizeChainData] only asks [Array.isArray]), in an entry of
    [effectChain] the value [undefined], since every path that makes an
    entry gives it an array. *)
Record entry : Type := Entry {
  id : jsval;
  name : jsval;
  options : option (gmap string optval);
  inputs : option (list jsval);
  position : option point;
}.

Definition set_id (v : jsval) (e : entry) : entry :=
  Entry v (name e) (options e) (inputs e) (position e).
Definition set_name (v : jsval) (e : entry) : entry :=
  Entry (id e) v (options e) (inputs e) (position e).
Definition set_options (o : gmap string optval) (e : entry) : entry :=
  Entry (id e) (name e) (Some o) (inputs e) (position e).
Definition set_inputs (l : list jsval) (e : entry) : entry :=
  Entry (id e) (name e) (options e) (Some l) (position e).
Definition set_position (p : point) (e : entry) : entry :=
  Entry (id e) (name e) (options e) (inputs e) (Some p).

(** [e.inputs || []] *)
Definition inputs_or_empty (e : entry) : list jsval := default [] (inputs e).

(** [viewportState]: [{x, y, scale}]. *)
Record viewport : Type := Viewport { vx : Q; vy : Q; scale : Q }.

(** What [getBoundingClientRect()] returns. *)
Record rect : Type := Rect {
  rect_left : Q; rect_top : Q; rect_width : Q; rect_height : Q;
}.

(** An effect definition of the catalogue; the option schema plays no part
    in the chain model. *)
Record effectDef : Type := EffectDef {
  def_name : string;
  def_description : string;
}.

(** The page: what the script only reads. [now k] is what [Date.now()]
    returns when the [k]-th id of the session is made. *)
Record page : Type := Page {
  effectChainContainer : bool;
  chainListView : bool;
  chainListActive : bool;
  toastEl : bool;
  nodeStage : option rect;
  nodeViewport : bool;
  isMobile : bool;
  availableEffects : list effectDef;
  now : nat → N;
}.

(** The mutable state of the script. [toast] is the message on display,
    with its [isError] flag. *)
Record editor : Type := Editor {
  effectChain : list entry;
  nodeIdCounter : nat;
  viewportState : viewport;
  selectedOutput : jsval;
  contextMenuVisible : bool;
  toast : option (string * bool);
}.

Definition set_effectChain (c : list entry) (st : editor) : editor :=
  Editor c (nodeIdCounter st) (viewportState st) (selectedOutput st)
    (contextMenuVisible st) (toast st).
Definition set_nodeIdCounter (n : nat) (st : editor) : editor :=
  Editor (effectChain st) n (viewportState st) (selectedOutput st)
    (contextMenuVisible st) (toast st).
Definition set_viewportState (v : viewport) (st : editor) : editor :=
  Editor (effectChain st) (nodeIdCounter st) v (selectedOutput st)
    (contextMenuVisible st) (toast st).
Definition set_selectedOutput (v : jsval) (st : editor) : editor :=
  Editor (effectChain st) (nodeIdCounter st) (viewportState st) v
    (contextMenuVisible st) (toast st).
Definition set_toast (t : option (string * bool)) (st : editor) : editor :=
  Editor (effectChain st) (nodeIdCounter st) (viewportState st)
    (selectedOutput st) (contextMenuVisible st) t.

(** ** Ids and default positions *)

(** The string [`node_${Date.now()}_${nodeIdCounter}`] for counter [k]. *)
Definition nodeIdString (pg : page) (k : nat) : string :=
  "node_" +:+ pretty (now pg k) +:+ "_" +:+ pretty k.

(** [makeNodeId]: increments the counter, returns the id and the counter. *)
Definition makeNodeId (pg : page) (ctr : nat) : jsval * nat :=
  let ctr' := S ctr in
  (JStr (nodeIdString pg ctr'), ctr').

(** [getDefaultPosition(idx)] *)
Definition getDefaultPosition (idx : nat) : point :=
  let colSpacing := 360%Z in
  let rowSpacing := 160%Z in
  let col := Z.of_nat (idx mod 4) in
  let row := Z.of_nat (idx / 4) in
  Point (inject_Z (120 + col * colSpacing)) (inject_Z (120 + row * rowSpacing)).

(** The body of the [forEach] of [ensurePositions], for the entry at [idx]. *)
Definition ensureEntry (pg : page) (idx : nat) (e : entry) (ctr : nat)
  : entry * nat :=
  let e1 := match position e with
            | None => set_position (getDefaultPosition idx) e
            | Some _ => e
            end in
  let '(e2, ctr2) := if truthy (id e1) then (e1, ctr)
                     else let '(i, c) := makeNodeId pg ctr in (set_id i e1, c) in
  let e3 := match inputs e2 with
            | None => set_inputs [] e2
            | Some _ => e2
            end in
  (e3, ctr2).

Fixpoint ensureFrom (pg : page) (idx : nat) (chain : list entry) (ctr : nat)
  : list entry * nat :=
  match chain with
  | [] => ([], ctr)
  | e :: rest =>
      let '(e', ctr1) := ensureEntry pg idx e ctr in
      let '(rest', ctr2) := ensureFrom pg (S idx) rest ctr1 in
      (e' :: rest', ctr2)
  end.

(** [ensurePositions] *)
Definition ensurePositions (pg : page) (st : editor) : editor :=
  let '(chain, ctr) := ensureFrom pg 0 (effectChain st) (nodeIdCounter st) in
  set_nodeIdCounter ctr (set_effectChain chain st).

(** The callback of the [map] of [normalizeChainData]. *)
Definition normalizeEntry (pg : page) (idx : nat) (e : entry) (ctr : nat)
  : entry * nat :=
  let '(i, ctr') := if truthy (id e) then (id e, ctr) else makeNodeId pg ctr in
  (Entry i (name e)
     (Some (default ∅ (options e)))
     (Some (default [] (inputs e)))
     (Some (default (getDefaultPosition idx) (position e))),
   ctr').

Fixpoint normalizeFrom (pg : page) (idx : nat) (chain : list entry) (ctr : nat)
  : list entry * nat :=
  match chain with
  | [] => ([], ctr)
  | e :: rest =>
      let '(e', ctr1) := normalizeEntry pg idx e ctr in
      let '(rest', ctr2) := normalizeFrom pg (S idx) rest ctr1 in
      (e' :: rest', ctr2)
  end.

(** [normalizeChainData(chain)]; [None] is an argument that is not an array.
    Returns the new array and the id counter. *)
Definition normalizeChainData (pg : page) (chain : option (list entry))
    (ctr : nat) : list entry * nat :=
  match chain with
  | None => ([], ctr)
  | Some l => normalizeFrom pg 0 l ctr
  end.

(** ** Effects and their inputs *)

(** [getMaxInputs(effectName)] *)
Definition getMaxInputs (effectName : jsval) : nat :=
  if decide (effectName = JStr "mix") then 2
  else if decide (effectName = JStr "transfer-motion") then 2
  else if decide (effectName = JStr "chopper") then 4
  else if decide (effectName = JStr "source" ∨ effectName = JStr "source-local"
                  ∨ effectName = JStr "noise") then 0
  else 1.

(** [getEffectDefinition(name)] *)
Definition getEffectDefinition (pg : page) (n : string) : option effectDef :=
  snd <$> list_find (λ d, def_name d = n) (availableEffects pg).

(** [getEntryById(nodeId)], with the index of the entry found: the caller
    mutates that object, which is the first one with this id. *)
Definition getEntryById (nodeId : jsval) (chain : list entry)
  : option (nat * entry) :=
  list_find (λ e, id e = nodeId) chain.

(** ** Rendering and the toast, as far as they touch the state *)

(** [renderChainList]: of the model it only calls [ensurePositions]. *)
Definition renderChainList (pg : page) (st : editor) : editor :=
  if chainListView pg then ensurePositions pg st else st.

(** [if (chainListView && chainListView.classList.contains('active'))
    renderChainList()] *)
Definition renderListIfActive (pg : page) (st : editor) : editor :=
  if chainListView pg && chainListActive pg then renderChainList pg st else st.

(** [renderChain] *)
Definition renderChain (pg : page) (st : editor) : editor :=
  if effectChainContainer pg
  then renderListIfActive pg (ensurePositions pg st)
  else st.

(** [showToast(message, isError)] *)
Definition showToast (pg : page) (message : string) (isError : bool)
    (st : editor) : editor :=
  if toastEl pg then set_toast (Some (message, isError)) st else st.

(** ** Operations on the chain *)

(** [inputs[portIndex] = fromId] on a JS array: past the end the array
    grows, and the slots in between are holes. *)
Definition js_set (l : list jsval) (i : nat) (v : jsval) : list jsval :=
  if decide (i < length l) then <[i := v]> l
  else l ++ replicate (i - length l) JUndefined ++ [v].

(** [l[i]] on a JS array. *)
Definition js_get (l : list jsval) (i : nat) : jsval := default JUndefined (l !! i).

(** [while (inputs.length < maxInputs) inputs.push(null)] *)
Definition padNull (l : list jsval) (maxInputs : nat) : list jsval :=
  l ++ replicate (maxInputs - length l) JNull.

(** The loop of [connectNodes] that keeps [fromId] only at [portIndex]. *)
Definition dedupe (fromId : jsval) (portIndex : nat) (l : list jsval)
  : list jsval :=
  imap (λ i v, if decide (v = fromId ∧ i ≠ portIndex) then JNull else v) l.

(** What [connectNodes] assigns to [target.inputs]. *)
Definition connectInputs (fromId : jsval) (portIndex maxInputs : nat)
    (target : entry) : list jsval :=
  let ins := default [] (inputs target) in
  let ins := padNull ins maxInputs in
  let ins := js_set ins portIndex fromId in
  let ins := dedupe fromId portIndex ins in
  take maxInputs ins.

(** [connectNodes(fromId, toId, portIndex)]. The port index is the
    [data-port-index] of a port of the card, a natural number. *)
Definition connectNodes (pg : page) (fromId toId : jsval) (portIndex : nat)
    (st : editor) : editor :=
  if negb (truthy fromId) || negb (truthy toId) || bool_decide (fromId = toId)
  then st
  else match getEntryById toId (effectChain st) with
       | None => st
       | Some (k, target) =>
           let maxInputs := getMaxInputs (name target) in
           if decide (maxInputs = 0) then st
           else
             let target' :=
               set_inputs (connectInputs fromId portIndex maxInputs target) target in
             renderChain pg (set_effectChain (<[k := target']> (effectChain st)) st)
       end.

(** [clearSelectedOutput] *)
Definition clearSelectedOutput (st : editor) : editor :=
  set_selectedOutput JNull st.

(** The click handler of the input port [idx] of the card of the entry at
    index [k] of the chain. *)
Definition portInClick (pg : page) (k idx : nat) (st : editor) : editor :=
  match effectChain st !! k with
  | None => st
  | Some e =>
      if negb (truthy (selectedOutput st))
      then showToast pg "Sélectionnez d'abord une sortie" true st
      else clearSelectedOutput (connectNodes pg (selectedOutput st) (id e) idx st)
  end.

(** What [removeEffectById] assigns to [e.inputs]. *)
Definition purgeInputs (nodeId : jsval) (e : entry) : entry :=
  set_inputs (filter (λ i, i ≠ nodeId) (inputs_or_empty e)) e.

(** [removeEffectById(nodeId)] *)
Definition removeEffectById (pg : page) (nodeId : jsval) (st : editor)
  : editor :=
  match list_find (λ e, id e = nodeId) (effectChain st) with
  | None => st
  | Some (idx, _) =>
      let chain := delete idx (effectChain st) in
      let chain := purgeInputs nodeId <$> chain in
      renderListIfActive pg (renderChain pg (set_effectChain chain st))
  end.

(** What the change handler of the effect select does to its entry. *)
Definition retargetEntry (newName : string) (e : entry) : entry :=
  let e := set_name (JStr newName) e in
  let e := set_options ∅ e in
  let e := set_inputs (inputs_or_empty e) e in
  let maxInputs := getMaxInputs (JStr newName) in
  if decide (maxInputs < length (inputs_or_empty e))
  then set_inputs (take maxInputs (inputs_or_empty e)) e
  else e.

(** The change handler of the effect select of the card (canvas view) of
    the entry at index [k]: the handler holds the entry itself. *)
Definition retargetNode (pg : page) (k : nat) (newName : string)
    (st : editor) : editor :=
  match effectChain st !! k with
  | None => st
  | Some e =>
      renderChain pg
        (set_effectChain (<[k := retargetEntry newName e]> (effectChain st)) st)
  end.

(** The same handler in the list view, which also calls [renderChainList]. *)
Definition retargetNodeList (pg : page) (k : nat) (newName : string)
    (st : editor) : editor :=
  match effectChain st !! k with
  | None => st
  | Some e =>
      renderChainList pg (renderChain pg
        (set_effectChain (<[k := retargetEntry newName e]> (effectChain st)) st))
  end.

(** ** The viewport *)

(** [clampScale(value)] *)
Definition clampScale (value : Q) : Q :=
  Qmin (19 # 10) (Qmax (45 # 100) value).

(** [clientToWorld(clientX, clientY)] *)
Definition clientToWorld (pg : page) (vs : viewport) (clientX clientY : Q)
  : point :=
  match nodeStage pg with
  | None => Point clientX clientY
  | Some r =>
      let localX := ((clientX - rect_left r - vx vs) / scale vs)%Q in
      let localY := ((clientY - rect_top r - vy vs) / scale vs)%Q in
      Point localX localY
  end.

(** [getViewportCenterPosition] *)
Definition getViewportCenterPosition (pg : page) (st : editor) : point :=
  match nodeStage pg with
  | None => getDefaultPosition (length (effectChain st))
  | Some r =>
      clientToWorld pg (viewportState st)
        (rect_left r + rect_width r / 2)%Q (rect_top r + rect_height r / 2)%Q
  end.

(** [addEffect(name, positionOverride)]. [getViewportCenterPosition()]
    always returns an object, so the last alternative of
    [positionOverride || getViewportCenterPosition() || getDefaultPosition(..)]
    is never taken. *)
Definition addEffect (pg : page) (n : string)
    (positionOverride : option point) (st : editor) : editor :=
  if bool_decide (n = "source-local")
     && bool_decide (Exists (λ e, name e = JStr "source-local") (effectChain st))
  then showToast pg "Le nœud source local existe déjà." true st
  else
    match from_option Some (head (availableEffects pg)) (getEffectDefinition pg n) with
    | None => st
    | Some def =>
        let pos := default (getViewportCenterPosition pg st) positionOverride in
        let '(nid, ctr) := makeNodeId pg (nodeIdCounter st) in
        let e := Entry nid (JStr (def_name def)) (Some ∅) (Some []) (Some pos) in
        renderListIfActive pg (renderChain pg
          (set_nodeIdCounter ctr (set_effectChain (effectChain st ++ [e]) st)))
    end.

(** A wheel event: [clientX], [clientY], [deltaY]. *)
Record wheelEvent : Type := WheelEvent {
  clientX : Q; clientY : Q; deltaY : Q;
}.

(** The update of [viewportState] in the wheel handler. *)
Definition zoomAt (pg : page) (r : rect) (e : wheelEvent) (vs : viewport)
  : viewport :=
  let before := clientToWorld pg vs (clientX e) (clientY e) in
  let delta := (deltaY e * - (1 # 1000))%Q in
  let newScale := clampScale (scale vs * (1 + delta))%Q in
  Viewport ((clientX e - rect_left r) - px before * newScale)%Q
           ((clientY e - rect_top r) - py before * newScale)%Q
           newScale.


(** ** The wheel update on doubles

    The numbers of the script are IEEE 754 doubles, and every operation
    rounds to the nearest one. [clampScale], [clientToWorld] and the update
    of the wheel handler once more, on primitive floats, with the
    operations in the order in which the script has them. A literal stands
    for the double nearest to it, as in JS. *)
Module Double.

Import PrimFloat.
#[local] Set Warnings "-inexact-float".
Local Open Scope float_scope.

Record point : Type := Point { px : float; py : float }.

Record viewport : Type := Viewport { vx : float; vy : float; scale : float }.

Record rect : Type := Rect {
  rect_left : float; rect_top : float; rect_width : float; rect_height : float;
}.

Record wheelEvent : Type := WheelEvent {
  clientX : float; clientY : float; deltaY : float;
}.

(** [Math.max(a, b)]: NaN when an argument is NaN; of two zeros, +0 unless
    both are -0. *)
Definition mathMax (a b : float) : float :=
  match a ?= b with
  | FLt => b
  | FGt => a
  | FEq => if get_sign a then b else a
  | FNotComparable => nan
  end.

(** [Math.min(a, b)]: NaN when an argument is NaN; of two zeros, -0 unless
    both are +0. *)
Definition mathMin (a b : float) : float :=
  match a ?= b with
  | FLt => a
  | FGt => b
  | FEq => if get_sign a then a else b
  | FNotComparable => nan
  end.

(** [clampScale(value)] *)
Definition clampScale (value : float) : float :=
  mathMin 1.9 (mathMax 0.45 value).

(** [clientToWorld(clientX, clientY)], for the bounding box of the stage if
    there is a stage. *)
Definition clientToWorld (stage : option rect) (vs : viewport)
    (clientX clientY : float) : point :=
  match stage with
  | None => Point clientX clientY
  | Some r =>
      let localX := (clientX - rect_left r - vx vs) / scale vs in
      let localY := (clientY - rect_top r - vy vs) / scale vs in
      Point localX localY
  end.

(** The update of [viewportState] in the wheel handler. *)
Definition zoomAt (r : rect) (e : wheelEvent) (vs : viewport) : viewport :=
  let before := clientToWorld (Some r) vs (clientX e) (clientY e) in
  let delta := deltaY e * -0.001 in
  let newScale := clampScale (scale vs * (1 + delta)) in
  Viewport ((clientX e - rect_left r) - px before * newScale)
           ((clientY e - rect_top r) - py before * newScale)
           newScale.


End Double.

(** * The rest of the editor *)

(** ** Handlers of a card *)

(** The click handler of the output port of the card of the entry at
    index [k]. *)
Definition portOutClick (pg : page) (k : nat) (st : editor) : editor :=
  match effectChain st !! k with
  | None => st
  | Some e =>
      showToast pg "Sortie sélectionnée : cliquez sur une entrée" false
        (set_selectedOutput (id e) (clearSelectedOutput st))
  end.

(** The click handler of the remove button of the card (or list item) of
    the entry at index [k]. *)
Definition removeClick (pg : page) (k : nat) (st : editor) : editor :=
  match effectChain st !! k with
  | None => st
  | Some e => removeEffectById pg (id e) st
  end.

(** The click handler of the up button of the list item of the entry at
    index [idx]:
    [[effectChain[idx - 1], effectChain[idx]] = [effectChain[idx], effectChain[idx - 1]]]
    under the only guard [idx > 0]. [renderChainList] makes one item for
    every entry, so the handler runs with [idx] below the length. For an
    index at or beyond the length the swap stores [undefined] in the array,
    and [ensurePositions], which the rendering calls next, reads a property
    of it and throws: [None]. *)
Definition moveUp (pg : page) (idx : nat) (st : editor) : option editor :=
  if decide (0 < idx)
  then match effectChain st !! idx, effectChain st !! (idx - 1) with
       | Some cur, Some prev =>
           Some (renderChainList pg (renderChain pg
                   (set_effectChain
                      (<[idx := prev]> (<[idx - 1 := cur]> (effectChain st)))
                      st)))
       | _, _ => None
       end
  else Some st.

(** The click handler of the down button of the list item of the entry at
    index [idx]; the guard [idx < effectChain.length - 1] is what makes
    [effectChain[idx + 1]] an entry. *)
Definition moveDown (pg : page) (idx : nat) (st : editor) : editor :=
  match effectChain st !! idx with
  | None => st
  | Some cur =>
      if decide (idx < length (effectChain st) - 1)
      then match effectChain st !! (idx + 1) with
           | Some next =>
               renderChainList pg (renderChain pg
                 (set_effectChain
                    (<[idx + 1 := cur]> (<[idx := next]> (effectChain st))) st))
           | None => st
           end
      else st
  end.

(** The definition that [addEffect] uses: the one of that name or, failing
    that, the first of the catalogue. *)
Definition chosenDefinition (pg : page) (n : string) : option effectDef :=
  from_option Some (head (availableEffects pg)) (getEffectDefinition pg n).

(** The entry that [addEffect] pushes. *)
Definition addedEntry (pg : page) (def : effectDef)
    (pos : option point) (st : editor) : entry :=
  Entry (JStr (nodeIdString pg (S (nodeIdCounter st))))
    (JStr (def_name def)) (Some ∅) (Some [])
    (Some (default (getViewportCenterPosition pg st) pos)).

(** ** Dragging a node and panning the stage *)

(** What [startNodeDrag] keeps for its [onMove]: the index of the entry
    found, its position and the pointer position at the start. *)
Record dragState : Type := DragState {
  dragIndex : nat;
  dragStart : point;
  pointerStart : point;
}.

(** [startNodeDrag(e, card, nodeId)], with [e.button], [e.clientX] and
    [e.clientY]: the state after [ensurePositions], and what [onMove] will
    use; nothing is dragged for another button or an unknown id. *)
Definition startNodeDrag (pg : page) (button : Z) (cx cy : Q) (nodeId : jsval)
    (st : editor) : editor * option dragState :=
  if decide (button = 0%Z)
  then match getEntryById nodeId (effectChain st) with
       | None => (st, None)
       | Some (k, _) =>
           let st' := ensurePositions pg st in
           match effectChain st' !! k ≫= position with
           | None => (st', None)
           | Some start => (st', Some (DragState k start (Point cx cy)))
           end
       end
  else (st, None).

(** The position that [onMove] gives the dragged entry for a pointer at
    [(cx, cy)]. *)
Definition dragPosition (d : dragState) (vs : viewport) (cx cy : Q) : point :=
  let dx := ((cx - px (pointerStart d)) / scale vs)%Q in
  let dy := ((cy - py (pointerStart d)) / scale vs)%Q in
  Point (px (dragStart d) + dx)%Q (py (dragStart d) + dy)%Q.

(** [onMove] of [startNodeDrag]. *)
Definition nodeDragMove (d : dragState) (cx cy : Q) (st : editor) : editor :=
  match effectChain st !! dragIndex d with
  | None => st
  | Some e =>
      set_effectChain
        (<[dragIndex d :=
             set_position (dragPosition d (viewportState st) cx cy) e]>
           (effectChain st)) st
  end.

(** [panStart]: [{x, y, vx, vy}]. *)
Record panOrigin : Type := PanOrigin {
  pan_x : Q; pan_y : Q; pan_vx : Q; pan_vy : Q;
}.

(** [isPanning] and [panStart]. *)
Record panState : Type := PanState {
  isPanning : bool;
  panStart : option panOrigin;
}.

(** Whether [setupPanning] installs its handlers. *)
Definition panningInstalled (pg : page) : bool :=
  bool_decide (is_Some (nodeStage pg)) && nodeViewport pg && negb (isMobile pg).

(** The [pointerdown] handler of the stage; [onCard] is
    [e.target.closest('.effect-item')]. *)
Definition panPointerDown (pg : page) (button : Z) (onCard : bool) (cx cy : Q)
    (vs : viewport) (ps : panState) : panState :=
  if negb (panningInstalled pg) then ps
  else if negb (bool_decide (button = 0%Z)) then ps
  else if onCard then ps
  else PanState true (Some (PanOrigin cx cy (vx vs) (vy vs))).

(** The [pointermove] handler of the document. *)
Definition panPointerMove (pg : page) (cx cy : Q) (vs : viewport)
    (ps : panState) : viewport :=
  if negb (panningInstalled pg) then vs
  else match isPanning ps, panStart ps with
       | true, Some o =>
           let dx := (cx - pan_x o)%Q in
           let dy := (cy - pan_y o)%Q in
           Viewport (pan_vx o + dx)%Q (pan_vy o + dy)%Q (scale vs)
       | _, _ => vs
       end.

(** The [pointerup] handler of the document. *)
Definition panPointerUp (pg : page) (ps : panState) : panState :=
  if negb (panningInstalled pg) then ps
  else PanState false (panStart ps).

(** ** The zoom slider *)

(** [Math.round] on an exact number: the nearest integer, a half going up. *)
Definition mathRound (q : Q) : Z := Qfloor (q + (1 # 2))%Q.

(** [scaleToPercent(scale)] *)
Definition scaleToPercent (s : Q) : Z := mathRound (s * 100)%Q.

(** [percentToScale(percent)] *)
Definition percentToScale (percent : Z) : Q := (inject_Z percent / 100)%Q.

(** [resetViewport], as far as [viewportState] goes. *)
Definition resetViewport (st : editor) : editor :=
  set_viewportState (Viewport 40 40 (9 # 10)) st.

(** [updateZoom] of [setupZoomSlider], for a slider at [percent]: the scale
    is written first, and [clientToWorld] then reads it. *)
Definition sliderZoom (pg : page) (percent : Z) (vs : viewport) : viewport :=
  let newScale := percentToScale percent in
  let vs1 := Viewport (vx vs) (vy vs) (clampScale newScale) in
  match nodeStage pg with
  | None => vs1
  | Some r =>
      let centerX := (rect_left r + rect_width r / 2)%Q in
      let centerY := (rect_top r + rect_height r / 2)%Q in
      let before := clientToWorld pg vs1 centerX centerY in
      Viewport (centerX - px before * scale vs1)%Q
               (centerY - py before * scale vs1)%Q
               (scale vs1)
  end.

(** ** The inline editor of a numeric option *)

(** [finish(commit)] of [startInlineEdit], on the [min] and [max] that
    [createOptionInput] keeps for the slider: [parsed] is
    [parseFloat(editor.value)], [None] for [NaN]. Returns the bounds and the
    value written to the slider, if one is. *)
Definition finishEdit (isInt commit : bool) (parsed : option Q)
    (bounds : Q * Q) : (Q * Q) * option Q :=
  if commit then
    match parsed with
    | None => (bounds, None)
    | Some x =>
        let val := if isInt then inject_Z (mathRound x) else x in
        let min := if Qlt_le_dec val (fst bounds) then val else fst bounds in
        let max := if Qlt_le_dec (snd bounds) val then val else snd bounds in
        ((min, max), Some val)
    end
  else (bounds, None).

(** ** Loading the settings *)

(** The fields of the settings object that the chain is built from.
    [effect_chain = None] is a falsy value, [local_file = None] too. *)
Record settings : Type := Settings {
  effect_chain : option (list entry);
  active_effects : option (list string);
  effect_options : gmap string (gmap string optval);
  local_file : option string;
}.

Definition SOURCE_YOUTUBE : effectDef :=
  EffectDef "source" "Source YouTube / playlist".

Definition SOURCE_LOCAL : effectDef :=
  EffectDef "source-local" "Source fichier local".

(** [availableEffects.splice(1, 0, SOURCE_LOCAL)] *)
Definition spliceLocal (l : list effectDef) : list effectDef :=
  take 1 l ++ SOURCE_LOCAL :: drop 1 l.

(** What [loadSettings] makes of the catalogue it fetched. *)
Definition installSources (effects : list effectDef) : list effectDef :=
  let l := if bool_decide (Exists (λ d, def_name d = def_name SOURCE_YOUTUBE) effects)
           then effects else SOURCE_YOUTUBE :: effects in
  if bool_decide (Exists (λ d, def_name d = def_name SOURCE_LOCAL) l)
  then l else spliceLocal l.

(** The entries that [loadSettings] makes of the legacy [active_effects]. *)
Fixpoint legacyChain (pg : page) (opts : gmap string (gmap string optval))
    (names : list string) (ctr : nat) : list entry * nat :=
  match names with
  | [] => ([], ctr)
  | n :: rest =>
      let '(i, ctr1) := makeNodeId pg ctr in
      let e := Entry i (JStr n) (Some (default ∅ (opts !! n))) (Some []) None in
      let '(rest', ctr2) := legacyChain pg opts rest ctr1 in
      (e :: rest', ctr2)
  end.

(** [options.local_file = file] on the first source-local entry, or a new
    source-local entry at the end. The write goes to the options object of
    the entry found. On the legacy path the entries of one name have one
    and the same object as their options, [settings.effect_options[name]],
    when the settings have it ([shared]); the write then shows in every
    source-local entry. Otherwise every entry has an options object of its
    own. *)
Definition attachLocalFile (shared : bool) (file : string)
    (chain : list entry) : list entry :=
  match list_find (λ e, name e = JStr "source-local") chain with
  | Some (k, e) =>
      let o := <["local_file" := OStr file]> (default ∅ (options e)) in
      if shared
      then (λ e', if decide (name e' = JStr "source-local")
                  then set_options o e' else e') <$> chain
      else <[k := set_options o e]> chain
  | None =>
      chain ++ [Entry JUndefined (JStr "source-local")
                  (Some {["local_file" := OStr file]}) None None]
  end.

(** Whether [loadSettings] takes the legacy fields:
    [!(settings.effect_chain && settings.effect_chain.length)]. *)
Definition legacyPath (s : settings) : bool :=
  match effect_chain s with
  | Some (_ :: _) => false
  | _ => true
  end.

(** The chain that [loadSettings] builds before it renders: the structured
    [effect_chain] when it has entries, the legacy fields otherwise; then a
    source in front when there is neither a source nor a noise node at the
    head; then the local file. Returns the chain and the id counter. *)
Definition loadChain (pg : page) (s : settings) (ctr : nat)
  : list entry * nat :=
  let '(chain, ctr') :=
    match effect_chain s with
    | Some (e :: l) => normalizeChainData pg (Some (e :: l)) ctr
    | _ => legacyChain pg (effect_options s) (default [] (active_effects s)) ctr
    end in
  let hasSource :=
    bool_decide (Exists (λ e, name e = JStr "source" ∨ name e = JStr "source-local")
                   chain) in
  let hasAutonomousSource :=
    bool_decide (name <$> head chain = Some (JStr "noise")) in
  let chain :=
    if negb hasSource && negb hasAutonomousSource
    then Entry JUndefined (JStr "source") (Some ∅) None None :: chain
    else chain in
  let shared :=
    legacyPath s && bool_decide (is_Some (effect_options s !! "source-local")) in
  let chain :=
    match local_file s with
    | Some file =>
        if String.eqb file "" then chain else attachLocalFile shared file chain
    | None => chain
    end in
  (chain, ctr').

(** * Sample pages and states

    A page with every element the script looks up, no stage box, an empty
    catalogue and a clock that stands still; and the state the script starts
    in, around a given chain. *)
Definition samplePage : page :=
  Page true true true true None true false [] (λ _, 0%N).

Definition sampleEditor (chain : list entry) : editor :=
  Editor chain 0 (Viewport 40 40 (9 # 10)) JNull false None.

(** A node as [addEffect] makes it, with given inputs. *)
Definition sampleNode (i n : string) (ins : list jsval) : entry :=
  Entry (JStr i) (JStr n) (Some ∅) (Some ins) (Some (Point 0 0)).

(** A page with a stage of 800 by 600 at the origin. *)
Definition stagePage : page :=
  Page true true false true (Some (Rect 0 0 800 600)) true false []
    (λ _, 0%N).


(** * Predicates of the specification *)

(** [ensurePositions] fills in what is missing and changes nothing else:
    the name, the options, the inputs when there are some, the id when
    there is one. *)
Definition same_node (e e' : entry) : Prop :=
  name e' = name e
  ∧ options e' = options e
  ∧ inputs e' = Some (inputs_or_empty e)
  ∧ (truthy (id e) = true → id e' = id e).

(** The same, for an entry that rendering may not have touched at all. *)
Definition kept_node (e e' : entry) : Prop :=
  e' = e ∨ same_node e e'.

(** What "no renumbering" asks of the inputs of one node: a slot that held
    [nodeId] reads null or undefined afterwards, every other slot reads
    what it read before. *)
Definition slots_kept (nodeId : jsval) (before after : list jsval) : Prop :=
  ∀ i,
    (js_get before i = nodeId →
       js_get after i = JNull ∨ js_get after i = JUndefined)
    ∧ (js_get before i ≠ nodeId → js_get after i = js_get before i).

(** "No renumbering" for a whole removal: it holds between every node that
    is left and what it was before. *)
Definition removal_keeps_slots (pg : page) (st : editor) (nodeId : jsval)
  : Prop :=
  ∀ idx e0,
    list_find (λ e, id e = nodeId) (effectChain st) = Some (idx, e0) →
    Forall2 (λ e e', slots_kept nodeId (inputs_or_empty e) (inputs_or_empty e'))
      (delete idx (effectChain st))
      (effectChain (removeEffectById pg nodeId st)).

(** [fromId] sits in exactly the slot [q] of the array [l]. *)
Definition only_at (v : jsval) (q : nat) (l : list jsval) : Prop :=
  ∀ i, js_get l i = v ↔ i = q.

(** An entry has an id. *)
Definition has_id (e : entry) : Prop := truthy (id e) = true.


(** No character of [s] is [c]. *)
Fixpoint free_of (c : ascii) (s : string) : Prop :=
  match s with
  | EmptyString => True
  | String c' s' => c' ≠ c ∧ free_of c s'
  end.

(** The entries of [l] that have no id. *)
Definition missing_ids (l : list entry) : nat :=
  length (filter (λ e, truthy (id e) = false) l).

(** The canonical node shape: an id, and options, inputs and a position. *)
Definition canonical (e : entry) : Prop :=
  truthy (id e) = true
  ∧ is_Some (options e) ∧ is_Some (inputs e) ∧ is_Some (position e).


(** * Predicates on chains *)

(** What [ensurePositions] leaves nothing to do for: an entry with an id, a
    position and an [inputs] array. *)
Definition ensured (e : entry) : Prop :=
  truthy (id e) = true ∧ is_Some (position e) ∧ is_Some (inputs e).

(** Every string in the [inputs] of a node is the id of a node. *)
Definition no_dangling (chain : list entry) : Prop :=
  ∀ e s, e ∈ chain → JStr s ∈ inputs_or_empty e →
    ∃ e', e' ∈ chain ∧ id e' = JStr s.

(** What rendering makes of an entry: it keeps the name, the options, the
    inputs and the id that are there, and the position that is there; and
    an entry that lacks nothing is left exactly as it is. *)
Definition completed_node (e e' : entry) : Prop :=
  kept_node e e'
  ∧ (∀ q, position e = Some q → position e' = Some q)
  ∧ (ensured e → e' = e).

(** At most one node of the chain has the effect source-local. *)
Definition one_local_source (chain : list entry) : Prop :=
  length (filter (λ e, name e = JStr "source-local") chain) ≤ 1.

(** * Properties *)

(** ** What rendering leaves of an entry *)

Lemma kept_node_name e e' : kept_node e e' → name e' = name e.
Proof. intros [->|(? & _)]; done. Qed.


Lemma kept_node_inputs e e' l :
  kept_node e e' → inputs e = Some l → inputs e' = Some l.
Proof.
  intros [->|(_ & _ & Hin & _)] Hl; [done|].
  rewrite Hin. unfold inputs_or_empty. by rewrite Hl.
Qed.

Lemma kept_node_id e e' :
  kept_node e e' → truthy (id e) = true → id e' = id e.
Proof. intros [->|(_ & _ & _ & Hid)] Ht; auto. Qed.

Lemma kept_node_refl e : kept_node e e.
Proof. by left. Qed.

Lemma kept_node_trans e1 e2 e3 :
  kept_node e1 e2 → kept_node e2 e3 → kept_node e1 e3.
Proof.
  intros H12 [->|H23]; [done|].
  destruct H12 as [->|H12]; [by right|].
  right. destruct H12 as (Hn & Ho & Hi & Hid), H23 as (Hn' & Ho' & Hi' & Hid').
  repeat split.
  - congruence.
  - congruence.
  - rewrite Hi'. unfold inputs_or_empty at 1. by rewrite Hi.
  - intros Ht. rewrite Hid'; [by apply Hid|]. by rewrite Hid.
Qed.

Lemma ensureEntry_same pg idx e ctr : same_node e (ensureEntry pg idx e ctr).1.
Proof.
  unfold ensureEntry, same_node, inputs_or_empty.
  destruct e as [i n o ins p]; simpl.
  destruct p, (truthy i) eqn:Ht, ins; simpl; rewrite ?Ht; simpl; done.
Qed.

Lemma ensureFrom_same pg chain :
  ∀ idx ctr, Forall2 same_node chain (ensureFrom pg idx chain ctr).1.
Proof.
  induction chain as [|e rest IH]; intros idx ctr; simpl; [constructor|].
  pose proof (ensureEntry_same pg idx e ctr) as He.
  destruct (ensureEntry pg idx e ctr) as [e' ctr1]; simpl in He.
  specialize (IH (S idx) ctr1).
  destruct (ensureFrom pg (S idx) rest ctr1) as [rest' ctr2]; simpl in *.
  by constructor.
Qed.

Lemma ensurePositions_chain pg st :
  effectChain (ensurePositions pg st)
  = (ensureFrom pg 0 (effectChain st) (nodeIdCounter st)).1.
Proof.
  unfold ensurePositions.
  by destruct (ensureFrom pg 0 (effectChain st) (nodeIdCounter st)).
Qed.

Lemma ensurePositions_kept pg st :
  Forall2 kept_node (effectChain st) (effectChain (ensurePositions pg st)).
Proof.
  rewrite ensurePositions_chain.
  eapply Forall2_impl; [apply ensureFrom_same|]. intros; by right.
Qed.

Lemma Forall2_kept_refl l : Forall2 kept_node l l.
Proof. induction l; constructor; auto using kept_node_refl. Qed.

Lemma Forall2_kept_trans l1 l2 l3 :
  Forall2 kept_node l1 l2 → Forall2 kept_node l2 l3 → Forall2 kept_node l1 l3.
Proof.
  intros H12; revert l3; induction H12; intros l3 H23; inversion H23; subst;
    constructor; eauto using kept_node_trans.
Qed.

Lemma renderChainList_kept pg st :
  Forall2 kept_node (effectChain st) (effectChain (renderChainList pg st)).
Proof.
  unfold renderChainList. destruct (chainListView pg);
    auto using ensurePositions_kept, Forall2_kept_refl.
Qed.

Lemma renderListIfActive_kept pg st :
  Forall2 kept_node (effectChain st) (effectChain (renderListIfActive pg st)).
Proof.
  unfold renderListIfActive. destruct (chainListView pg && chainListActive pg);
    auto using renderChainList_kept, Forall2_kept_refl.
Qed.

Lemma renderChain_kept pg st :
  Forall2 kept_node (effectChain st) (effectChain (renderChain pg st)).
Proof.
  unfold renderChain. destruct (effectChainContainer pg);
    [|apply Forall2_kept_refl].
  eapply Forall2_kept_trans;
    [apply ensurePositions_kept|apply renderListIfActive_kept].
Qed.

(** ** removeEffectById *)

(** The chain after [removeEffectById], entry by entry: the entry found is
    taken out, the inputs of the others are filtered, then rendering fills
    in what is missing. *)
Lemma removeEffectById_chain pg nodeId st idx e0 :
  list_find (λ e, id e = nodeId) (effectChain st) = Some (idx, e0) →
  Forall2 kept_node (purgeInputs nodeId <$> delete idx (effectChain st))
    (effectChain (removeEffectById pg nodeId st)).
Proof.
  intros Hfind. unfold removeEffectById. rewrite Hfind.
  eapply Forall2_kept_trans; [|apply renderListIfActive_kept].
  apply (renderChain_kept pg (set_effectChain _ st)).
Qed.

(** C1. When [nodeId] is the id of a node of the chain, no node that is
    left after [removeEffectById(nodeId)] has [nodeId] in its [inputs]:
    each of them has an [inputs] array, and [nodeId] is not in it. *)
Theorem removeEffectById_no_dangling pg st nodeId :
  (∃ e, e ∈ effectChain st ∧ id e = nodeId) →
  ∀ e', e' ∈ effectChain (removeEffectById pg nodeId st) →
    ∃ l, inputs e' = Some l ∧ nodeId ∉ l.
Proof.
  intros (e & Hin & Hid) e' He'.
  destruct (list_find (λ e, id e = nodeId) (effectChain st))
    as [[idx e0]|] eqn:Hfind.
  - pose proof (removeEffectById_chain pg nodeId st idx e0 Hfind) as Hall.
    apply list_elem_of_lookup in He' as [k Hk].
    destruct (Forall2_lookup_r _ _ _ _ _ Hall Hk) as (e2 & Hk2 & Hkept).
    rewrite list_lookup_fmap in Hk2.
    destruct (delete idx (effectChain st) !! k) as [e1|]; [|done].
    injection Hk2 as <-.
    exists (filter (λ i, i ≠ nodeId) (inputs_or_empty e1)). split.
    + by apply (kept_node_inputs _ _ _ Hkept).
    + rewrite list_elem_of_filter. intros [Hne _]. by apply Hne.
  - apply list_find_None in Hfind. rewrite Forall_forall in Hfind.
    by destruct (Hfind e Hin).
Qed.

Lemma removeEffectById_no_dangling_witness :
  Forall (λ e', ∃ l, inputs e' = Some l ∧ JStr "a" ∉ l)
    (effectChain (removeEffectById samplePage (JStr "a")
       (sampleEditor [sampleNode "a" "source" [];
                      sampleNode "b" "mix" [JStr "a"; JStr "a"];
                      sampleNode "c" "glitch" [JStr "a"]]))).
Proof.
  apply Forall_forall.
  apply removeEffectById_no_dangling.
  eexists. split; [apply list_elem_of_here|reflexivity].
Defined.

(** In a filtered list an entry that passes sits at the number of passing
    entries before it. *)
Lemma filter_lookup_survivor {A} (P : A → Prop) `{!∀ x, Decision (P x)}
    (l : list A) i v :
  l !! i = Some v → P v →
  filter P l !! length (filter P (take i l)) = Some v.
Proof.
  intros Hi HP.
  remember (length (filter P (take i l))) as n eqn:Hn.
  rewrite <-(take_drop_middle l i v Hi).
  rewrite filter_app, filter_cons_True by done.
  rewrite lookup_app_r by lia. by rewrite Hn, Nat.sub_diag.
Qed.

(** C2, as the code has it. When [nodeId] is the id of a node,
    [removeEffectById(nodeId)] takes the first such node out and gives
    every node that is left, as its [inputs], the entries of its former
    [inputs] that differ from [nodeId], in their order. The array is
    compacted: a reference that survives moves to the index that counts the
    surviving entries before it, and no placeholder is left. *)
Theorem removeEffectById_filters pg st nodeId idx e0 :
  list_find (λ e, id e = nodeId) (effectChain st) = Some (idx, e0) →
  inputs <$> effectChain (removeEffectById pg nodeId st)
  = (λ e, Some (filter (λ i, i ≠ nodeId) (inputs_or_empty e)))
      <$> delete idx (effectChain st)
  ∧ ∀ e i v, e ∈ delete idx (effectChain st) →
      inputs_or_empty e !! i = Some v → v ≠ nodeId →
      filter (λ i, i ≠ nodeId) (inputs_or_empty e)
        !! length (filter (λ i, i ≠ nodeId) (take i (inputs_or_empty e)))
      = Some v.
Proof.
  intros Hfind. split.
  - pose proof (removeEffectById_chain pg nodeId st idx e0 Hfind) as Hall.
    revert Hall. generalize (effectChain (removeEffectById pg nodeId st)).
    generalize (delete idx (effectChain st)).
    intros l1 l2 Hall. remember (purgeInputs nodeId <$> l1) as l1' eqn:Hl1.
    revert l1 Hl1. induction Hall as [|e1 e2 r1 r2 Hk _ IH]; intros l1 Hl1.
    + by destruct l1.
    + destruct l1 as [|e r]; [done|]. injection Hl1 as -> ->.
      simpl. f_equal; [|by apply IH].
      by apply (kept_node_inputs _ _ _ Hk).
  - intros e i v _ Hi Hv. by apply filter_lookup_survivor.
Qed.

Lemma removeEffectById_filters_witness :
  inputs <$> effectChain (removeEffectById samplePage (JStr "a")
      (sampleEditor [sampleNode "a" "source" [];
                     sampleNode "m" "mix" [JStr "a"; JStr "b"]]))
  = [Some [JStr "b"]].
Proof.
  apply (removeEffectById_filters samplePage
           (sampleEditor [sampleNode "a" "source" [];
                          sampleNode "m" "mix" [JStr "a"; JStr "b"]])
           (JStr "a") 0 (sampleNode "a" "source" [])).
  reflexivity.
Defined.

(** C2, as the specification states it, fails: [a] is at [inputs[0]] of the
    two nodes [m1] and [m2]; after [a] is removed, slot 0 of [m1] holds [b],
    which was in slot 1, and slot 1 is gone. *)
Lemma removeEffectById_renumbers :
  ¬ removal_keeps_slots samplePage
      (sampleEditor [sampleNode "a" "source" [];
                     sampleNode "b" "source" [];
                     sampleNode "m1" "mix" [JStr "a"; JStr "b"];
                     sampleNode "m2" "glitch" [JStr "a"]])
      (JStr "a").
Proof.
  intros H. specialize (H 0 _ eq_refl).
  vm_compute in H.
  inversion H as [|? ? ? ? _ H1]; subst.
  inversion H1 as [|? ? ? ? Hm1 _]; subst.
  destruct (Hm1 0) as [Hnull _].
  destruct (Hnull eq_refl); discriminate.
Qed.

(** ** connectNodes: the array it builds *)

(** [fromId], once past the guard of [connectNodes], is a string. *)
Lemma truthy_not_null v : truthy v = true → v ≠ JNull ∧ v ≠ JUndefined.
Proof. by destruct v. Qed.

Lemma length_padNull l n : n ≤ length (padNull l n).
Proof. unfold padNull. rewrite length_app, length_replicate. lia. Qed.

Lemma length_js_set l i v : length l ≤ length (js_set l i v).
Proof.
  unfold js_set. case_decide.
  - by rewrite length_insert.
  - rewrite length_app. lia.
Qed.

Lemma length_connectInputs f p n target :
  length (connectInputs f p n target) = n.
Proof.
  unfold connectInputs, dedupe.
  rewrite length_take, length_imap.
  pose proof (length_padNull (default [] (inputs target)) n).
  pose proof (length_js_set (padNull (default [] (inputs target)) n) p f).
  lia.
Qed.

(** The slots of the array that [connectNodes] builds, for a port of the
    target: [fromId] at [p], and at every other slot what was there,
    unless that was [fromId]. *)
Lemma lookup_connectInputs_valid f p n target i :
  p < n → i < n →
  connectInputs f p n target !! i
  = if decide (i = p) then Some f
    else (λ v, if decide (v = f) then JNull else v)
           <$> padNull (default [] (inputs target)) n !! i.
Proof.
  intros Hp Hi. unfold connectInputs, dedupe.
  pose proof (length_padNull (default [] (inputs target)) n) as Hlen.
  rewrite lookup_take_lt, list_lookup_imap by done.
  unfold js_set. rewrite decide_True by lia.
  destruct (decide (i = p)) as [->|Hne].
  - rewrite list_lookup_insert_eq by lia. simpl.
    rewrite decide_False; [done|]. intros [_ ?]; done.
  - rewrite list_lookup_insert_ne by done.
    destruct (padNull _ _ !! i) as [v|]; [|done]. simpl.
    f_equal. destruct (decide (v = f)).
    + by rewrite decide_True.
    + rewrite decide_False; [done|]. by intros [? _].
Qed.

(** For a port index that the target does not have, [fromId] is written
    past the slots that are kept: what is left is the former array, padded,
    with [fromId] taken out of it. *)
Lemma connectInputs_invalid f p n target :
  n ≤ p →
  connectInputs f p n target
  = take n ((λ v, if decide (v = f) then JNull else v)
              <$> padNull (default [] (inputs target)) n).
Proof.
  intros Hp. unfold connectInputs, dedupe.
  pose proof (length_padNull (default [] (inputs target)) n) as Hlen.
  set (L := padNull (default [] (inputs target)) n) in *.
  apply list_eq; intros i.
  destruct (decide (i < n)) as [Hi|Hi].
  - rewrite !lookup_take_lt, list_lookup_imap, list_lookup_fmap by done.
    assert (js_set L p f !! i = L !! i) as ->.
    { unfold js_set. case_decide.
      - apply list_lookup_insert_ne; lia.
      - apply lookup_app_l; lia. }
    destruct (L !! i) as [v|]; [|done]. simpl.
    f_equal. destruct (decide (v = f)).
    + rewrite decide_True; [done|]. split; [done|lia].
    + rewrite decide_False; [done|]. by intros [? _].
  - by rewrite !lookup_take_ge by lia.
Qed.

Lemma connectInputs_only_at f p n target :
  truthy f = true → p < n → only_at f p (connectInputs f p n target).
Proof.
  intros Hf Hp i. apply truthy_not_null in Hf as [Hnull Hundef].
  unfold js_get. destruct (decide (i < n)) as [Hi|Hi].
  - rewrite lookup_connectInputs_valid by done.
    destruct (decide (i = p)) as [->|Hne]; [done|].
    split; [|done]. intros Heq. exfalso.
    destruct (padNull _ _ !! i) as [v|]; simpl in Heq; [|done].
    case_decide; congruence.
  - rewrite lookup_ge_None_2 by (rewrite length_connectInputs; lia).
    simpl. split; [congruence|lia].
Qed.

(** ** connectNodes: the chain it leaves *)

Lemma kept_has_id l l' :
  Forall has_id l → Forall2 kept_node l l' → Forall has_id l'.
Proof.
  intros Hall H2. induction H2 as [|e e' r r' Hk _ IH]; [constructor|].
  inversion Hall as [|? ? He Hr]; subst. constructor; [|by apply IH].
  unfold has_id. by rewrite (kept_node_id _ _ Hk He).
Qed.

(** Rendering does not move the entry that [getEntryById] finds, when every
    entry has an id. *)
Lemma getEntryById_kept t l l' k e :
  Forall has_id l → Forall2 kept_node l l' →
  getEntryById t l = Some (k, e) →
  ∃ e', getEntryById t l' = Some (k, e') ∧ kept_node e e'.
Proof.
  unfold getEntryById. intros Hall H2 Hfind.
  apply list_find_Some in Hfind as (Hk & Hid & Hbefore).
  destruct (Forall2_lookup_l _ _ _ _ _ H2 Hk) as (e' & Hk' & Hkept).
  exists e'. split; [|done].
  apply list_find_Some. split; [done|]. split.
  - rewrite (kept_node_id _ _ Hkept); [done|].
    by apply (Forall_lookup_1 _ _ _ _ Hall Hk).
  - intros j y' Hj Hlt.
    destruct (Forall2_lookup_r _ _ _ _ _ H2 Hj) as (y & Hy & Hkept').
    rewrite (kept_node_id _ _ Hkept'); [by eapply Hbefore|].
    by apply (Forall_lookup_1 _ _ _ _ Hall Hy).
Qed.

Lemma getEntryById_insert t l k e e' :
  getEntryById t l = Some (k, e) → id e' = t →
  getEntryById t (<[k := e']> l) = Some (k, e').
Proof.
  unfold getEntryById. intros Hfind Hid.
  apply list_find_Some in Hfind as (Hk & _ & Hbefore).
  apply list_find_Some. split; [|split; [done|]].
  - apply list_lookup_insert_eq. by eapply lookup_lt_Some.
  - intros j y Hj Hlt. rewrite list_lookup_insert_ne in Hj by lia.
    by eapply Hbefore.
Qed.

(** What [connectNodes] does once past its guards. *)
Lemma connectNodes_accepted pg f t p st k target :
  truthy f = true → truthy t = true → f ≠ t →
  getEntryById t (effectChain st) = Some (k, target) →
  getMaxInputs (name target) ≠ 0 →
  connectNodes pg f t p st
  = renderChain pg
      (set_effectChain
         (<[k := set_inputs
                   (connectInputs f p (getMaxInputs (name target)) target)
                   target]> (effectChain st)) st).
Proof.
  intros Hf Ht Hne Hfind Hmax. unfold connectNodes.
  rewrite Hf, Ht, bool_decide_eq_false_2 by done. simpl.
  rewrite Hfind. by rewrite decide_False.
Qed.

(** The target of an accepted [connectNodes]: it stays where it is, with
    its id and name, and its [inputs] are the array built. *)
Lemma connectNodes_target pg f t p st k target :
  Forall has_id (effectChain st) →
  truthy f = true → f ≠ t →
  getEntryById t (effectChain st) = Some (k, target) →
  getMaxInputs (name target) ≠ 0 →
  ∃ target',
    getEntryById t (effectChain (connectNodes pg f t p st)) = Some (k, target')
    ∧ name target' = name target
    ∧ inputs target'
      = Some (connectInputs f p (getMaxInputs (name target)) target)
    ∧ Forall has_id (effectChain (connectNodes pg f t p st)).
Proof.
  intros Hall Hf Hne Hfind Hmax.
  assert (id target = t ∧ effectChain st !! k = Some target) as [Hid Hk].
  { pose proof (proj1 (list_find_Some _ _ _ _) Hfind) as (? & ? & _). done. }
  assert (truthy t = true) as Ht.
  { rewrite <-Hid. by apply (Forall_lookup_1 _ _ _ _ Hall Hk). }
  rewrite (connectNodes_accepted pg f t p st k target) by done.
  set (target1 := set_inputs _ target).
  set (st1 := set_effectChain _ st).
  assert (Forall has_id (effectChain st1)) as Hall1.
  { apply Forall_insert; [done|]. unfold has_id. simpl. by rewrite Hid. }
  pose proof (renderChain_kept pg st1) as Hkept.
  destruct (getEntryById_kept t _ _ k target1 Hall1 Hkept)
    as (target' & Hfind' & Hk').
  { by apply (getEntryById_insert t _ k target). }
  exists target'. split; [done|]. split; [|split].
  - by rewrite (kept_node_name _ _ Hk').
  - by apply (kept_node_inputs _ _ _ Hk').
  - by eapply kept_has_id.
Qed.

(** C3, as the code has it. In a chain whose nodes all have an id, let
    [toId] be the id of a node and [fromId] another id, and let [q] be a
    port of the target ([q] below its max-input count). After
    [connectNodes(fromId, toId, p)] and then [connectNodes(fromId, toId, q)],
    for any [p], the slot [q] is the one slot of the target's [inputs] that
    holds [fromId]. *)
Theorem connectNodes_twice_only_at pg st f t p q k target :
  Forall has_id (effectChain st) →
  truthy f = true → f ≠ t →
  getEntryById t (effectChain st) = Some (k, target) →
  q < getMaxInputs (name target) →
  ∃ target' l,
    getEntryById t
      (effectChain (connectNodes pg f t q (connectNodes pg f t p st)))
    = Some (k, target')
    ∧ inputs target' = Some l
    ∧ only_at f q l.
Proof.
  intros Hall Hf Hne Hfind Hq.
  destruct (connectNodes_target pg f t p st k target)
    as (t1 & Hfind1 & Hname1 & _ & Hall1); [done|done|done|done|lia|].
  destruct (connectNodes_target pg f t q _ k t1 Hall1 Hf Hne Hfind1)
    as (t2 & Hfind2 & _ & Hin2 & _); [rewrite Hname1; lia|].
  exists t2, (connectInputs f q (getMaxInputs (name t1)) t1).
  split; [done|]. split; [done|].
  apply connectInputs_only_at; [done|]. by rewrite Hname1.
Qed.

Lemma connectNodes_twice_only_at_witness :
  ∃ target' l,
    getEntryById (JStr "m")
      (effectChain
         (connectNodes samplePage (JStr "s") (JStr "m") 1
            (connectNodes samplePage (JStr "s") (JStr "m") 0
               (sampleEditor [sampleNode "s" "source" [];
                              sampleNode "m" "mix" []]))))
    = Some (1, target')
    ∧ inputs target' = Some l
    ∧ only_at (JStr "s") 1 l.
Proof.
  apply (connectNodes_twice_only_at samplePage
           (sampleEditor [sampleNode "s" "source" []; sampleNode "m" "mix" []])
           (JStr "s") (JStr "m") 0 1 1 (sampleNode "m" "mix" [])).
  - repeat constructor.
  - reflexivity.
  - discriminate.
  - reflexivity.
  - vm_compute. lia.
Defined.

(** C3, as the specification states it, fails for a second port index that
    the target does not have: [t] is a glitch node, with one input; after
    [connectNodes(s, t, 0)] and [connectNodes(s, t, 1)] its [inputs] are
    [[null]], and [s] is in no slot at all. *)
Lemma connectNodes_twice_no_slot :
  let st := sampleEditor [sampleNode "s" "source" []; sampleNode "t" "glitch" []] in
  let st' := connectNodes samplePage (JStr "s") (JStr "t") 1
               (connectNodes samplePage (JStr "s") (JStr "t") 0 st) in
  getEntryById (JStr "s") (effectChain st) = Some (0, sampleNode "s" "source" [])
  ∧ getEntryById (JStr "t") (effectChain st) = Some (1, sampleNode "t" "glitch" [])
  ∧ 1 ≤ getMaxInputs (JStr "glitch")
  ∧ 1 ≠ 0
  ∧ ∃ target', getEntryById (JStr "t") (effectChain st') = Some (1, target')
      ∧ inputs target' = Some [JNull]
      ∧ ¬ only_at (JStr "s") 1 (inputs_or_empty target').
Proof.
  simpl. split; [reflexivity|]. split; [reflexivity|].
  split; [vm_compute; lia|]. split; [lia|].
  eexists. split; [vm_compute; reflexivity|].
  split; [reflexivity|]. intros Honly.
  pose proof (proj2 (Honly 1) eq_refl) as Hs. discriminate Hs.
Qed.

(** C4, as the code has it. In a chain whose nodes all have an id, let
    [toId] be the id of a mix node and [fromId] another id. After
    [connectNodes(fromId, toId, 0)] and then [connectNodes(fromId, toId, 1)]
    the [inputs] of the mix node are [[null, fromId]]: the second call
    takes [fromId] out of port 0. *)
Theorem connectNodes_mix_second_port pg st f t k target :
  Forall has_id (effectChain st) →
  truthy f = true → f ≠ t →
  getEntryById t (effectChain st) = Some (k, target) →
  name target = JStr "mix" →
  ∃ target',
    getEntryById t
      (effectChain (connectNodes pg f t 1 (connectNodes pg f t 0 st)))
    = Some (k, target')
    ∧ inputs target' = Some [JNull; f].
Proof.
  intros Hall Hf Hne Hfind Hmix.
  assert (getMaxInputs (name target) = 2) as Hmax by (by rewrite Hmix).
  destruct (connectNodes_target pg f t 0 st k target)
    as (t1 & Hfind1 & Hname1 & Hin1 & Hall1); [done|done|done|done|lia|].
  destruct (connectNodes_target pg f t 1 _ k t1 Hall1 Hf Hne Hfind1)
    as (t2 & Hfind2 & _ & Hin2 & _); [rewrite Hname1; lia|].
  exists t2. split; [done|]. rewrite Hin2, Hname1, Hmax. f_equal.
  apply list_eq; intros i.
  destruct (decide (i < 2)) as [Hi|Hi].
  - rewrite lookup_connectInputs_valid by lia.
    destruct i as [|[|i]]; [|done|lia]. simpl.
    rewrite Hin1, Hmax. simpl. unfold padNull.
    rewrite length_connectInputs. simpl. rewrite app_nil_r.
    rewrite lookup_connectInputs_valid by lia. simpl.
    by rewrite decide_True.
  - rewrite lookup_ge_None_2 by (rewrite length_connectInputs; lia).
    by destruct i as [|[|i]]; [lia|lia|].
Qed.

Lemma connectNodes_mix_second_port_witness :
  ∃ target',
    getEntryById (JStr "m")
      (effectChain
         (connectNodes samplePage (JStr "s") (JStr "m") 1
            (connectNodes samplePage (JStr "s") (JStr "m") 0
               (sampleEditor [sampleNode "s" "source" [];
                              sampleNode "m" "mix" []]))))
    = Some (1, target')
    ∧ inputs target' = Some [JNull; JStr "s"].
Proof.
  apply (connectNodes_mix_second_port samplePage
           (sampleEditor [sampleNode "s" "source" []; sampleNode "m" "mix" []])
           (JStr "s") (JStr "m") 1 (sampleNode "m" "mix" [])).
  - repeat constructor.
  - reflexivity.
  - discriminate.
  - reflexivity.
  - reflexivity.
Defined.

(** C4, as the specification states it, fails: on the chain [source, mix]
    the two calls leave [mix.inputs = [null, source]], not
    [[source, source]]. *)
Lemma connectNodes_mix_not_both_ports :
  let st := sampleEditor [sampleNode "s" "source" []; sampleNode "m" "mix" []] in
  let st' := connectNodes samplePage (JStr "s") (JStr "m") 1
               (connectNodes samplePage (JStr "s") (JStr "m") 0 st) in
  getMaxInputs (JStr "mix") = 2
  ∧ inputs <$> effectChain st' = [Some []; Some [JNull; JStr "s"]]
  ∧ inputs <$> effectChain st' ≠ [Some []; Some [JStr "s"; JStr "s"]].
Proof. repeat split; vm_compute; congruence. Qed.

(** ** The bound on the number of inputs *)















(** ** When connectNodes does nothing *)

(** The guard [if (maxInputs === 0) return]. *)
Lemma connectNodes_zero_inputs pg st f t p k target :
  getEntryById t (effectChain st) = Some (k, target) →
  getMaxInputs (name target) = 0 →
  connectNodes pg f t p st = st.
Proof.
  intros Hfind Hmax. unfold connectNodes.
  destruct (_ || _); [done|]. rewrite Hfind. by rewrite decide_True.
Qed.

(** C6, as the code has it. [connectNodes(fromId, toId, portIndex)] leaves
    the whole state as it is when [fromId] or [toId] is falsy (undefined,
    null or the empty string), when they are equal, when no node of the
    chain has the id [toId], or when the effect of the node found for
    [toId] takes no input. *)
Theorem connectNodes_noop pg st f t p :
  truthy f = false
  ∨ truthy t = false
  ∨ f = t
  ∨ (∀ e, e ∈ effectChain st → id e ≠ t)
  ∨ (∃ k target, getEntryById t (effectChain st) = Some (k, target)
                 ∧ getMaxInputs (name target) = 0) →
  connectNodes pg f t p st = st.
Proof.
  unfold connectNodes.
  intros [Hf|[Ht|[Heq|[Hnone|(k & target & Hfind & Hmax)]]]].
  - by rewrite Hf.
  - rewrite Ht. by destruct (truthy f).
  - rewrite (bool_decide_eq_true_2 _ Heq). by rewrite orb_true_r.
  - destruct (_ || _); [done|].
    destruct (getEntryById t (effectChain st)) as [[k target]|] eqn:Hfind;
      [|done].
    apply list_find_Some in Hfind as (Hk & Hid & _).
    destruct (Hnone target); [|done]. by eapply list_elem_of_lookup_2.
  - by eapply connectNodes_zero_inputs.
Qed.

Lemma connectNodes_noop_witness :
  connectNodes samplePage (JStr "g") (JStr "s") 0
    (sampleEditor [sampleNode "s" "source" []; sampleNode "g" "glitch" []])
  = sampleEditor [sampleNode "s" "source" []; sampleNode "g" "glitch" []].
Proof.
  apply connectNodes_noop.
  right. right. right. right.
  exists 0, (sampleNode "s" "source" []). split; reflexivity.
Defined.

(** C6, as the specification states it, fails for a [fromId] that is the id
    of no node: the chain holds the one node [t], and
    [connectNodes("ghost", "t", 0)] writes ["ghost"] into its [inputs]. *)
Lemma connectNodes_unknown_source :
  let st := sampleEditor [sampleNode "t" "glitch" []] in
  (∀ e, e ∈ effectChain st → id e ≠ JStr "ghost")
  ∧ connectNodes samplePage (JStr "ghost") (JStr "t") 0 st ≠ st
  ∧ inputs <$> effectChain (connectNodes samplePage (JStr "ghost") (JStr "t") 0 st)
    = [Some [JStr "ghost"]].
Proof.
  simpl. split; [|split].
  - intros e He. apply list_elem_of_singleton in He as ->. discriminate.
  - intros Heq. apply (f_equal (λ s, inputs <$> effectChain s)) in Heq.
    vm_compute in Heq. discriminate Heq.
  - reflexivity.
Qed.

(** ** connectNodes with a port index the target does not have *)

Lemma completed_node_refl e : completed_node e e.
Proof. split; [apply kept_node_refl|]. by split. Qed.

Lemma completed_node_trans e1 e2 e3 :
  completed_node e1 e2 → completed_node e2 e3 → completed_node e1 e3.
Proof.
  intros (Hk12 & Hp12 & He12) (Hk23 & Hp23 & He23).
  split; [by eapply kept_node_trans|]. split.
  - intros q Hq. by apply Hp23, Hp12.
  - intros He. pose proof (He12 He) as ->. by apply He23.
Qed.

Lemma ensureEntry_completed pg idx e ctr :
  completed_node e (ensureEntry pg idx e ctr).1.
Proof.
  split; [right; apply ensureEntry_same|]. split.
  - intros q Hq. unfold ensureEntry. rewrite Hq.
    destruct (truthy (id e)); simpl; by destruct (inputs e).
  - intros (Ht & [q Hq] & [l Hl]). unfold ensureEntry.
    by rewrite Hq, Ht, Hl.
Qed.

Lemma ensureFrom_completed pg chain :
  ∀ idx ctr, Forall2 completed_node chain (ensureFrom pg idx chain ctr).1.
Proof.
  induction chain as [|e rest IH]; intros idx ctr; simpl; [constructor|].
  pose proof (ensureEntry_completed pg idx e ctr) as He.
  destruct (ensureEntry pg idx e ctr) as [e' ctr1]; simpl in He.
  specialize (IH (S idx) ctr1).
  destruct (ensureFrom pg (S idx) rest ctr1) as [rest' ctr2]; simpl in *.
  by constructor.
Qed.

Lemma Forall2_completed_refl l : Forall2 completed_node l l.
Proof. induction l; constructor; auto using completed_node_refl. Qed.

Lemma Forall2_completed_trans l1 l2 l3 :
  Forall2 completed_node l1 l2 → Forall2 completed_node l2 l3 →
  Forall2 completed_node l1 l3.
Proof.
  intros H12; revert l3; induction H12; intros l3 H23; inversion H23; subst;
    constructor; eauto using completed_node_trans.
Qed.

Lemma ensurePositions_completed pg st :
  Forall2 completed_node (effectChain st) (effectChain (ensurePositions pg st)).
Proof. rewrite ensurePositions_chain. apply ensureFrom_completed. Qed.

(** Rendering completes the entries and does nothing else to them. *)
Lemma renderChain_completed pg st :
  Forall2 completed_node (effectChain st) (effectChain (renderChain pg st)).
Proof.
  unfold renderChain. destruct (effectChainContainer pg);
    [|apply Forall2_completed_refl].
  eapply Forall2_completed_trans; [apply ensurePositions_completed|].
  unfold renderListIfActive, renderChainList.
  destruct (chainListView pg && chainListActive pg);
    [|apply Forall2_completed_refl].
  destruct (chainListView pg);
    [apply ensurePositions_completed|apply Forall2_completed_refl].
Qed.

(** C7, as the code has it. A call of [connectNodes] that passes the guards
    (ids truthy and different, a node found for [toId]) with a port index
    at or above the max-input count of the target raises nothing and
    stores [fromId] nowhere. With a max-input count of 0 it changes
    nothing. Otherwise the [inputs] of the target become the former array,
    padded with null up to the max-input count, with null in place of every
    [fromId], cut at the max-input count. The call writes no other node;
    the rendering that ends it completes the nodes, as it does after every
    call: another node keeps its name, options and inputs, the id and the
    position it has, and is exactly what it was if it had an id, a position
    and an inputs array. *)
Theorem connectNodes_invalid_port pg st f t p k target :
  truthy f = true → truthy t = true → f ≠ t →
  getEntryById t (effectChain st) = Some (k, target) →
  getMaxInputs (name target) ≤ p →
  (getMaxInputs (name target) = 0 → connectNodes pg f t p st = st)
  ∧ (getMaxInputs (name target) ≠ 0 →
     ∃ target',
       effectChain (connectNodes pg f t p st) !! k = Some target'
       ∧ inputs target'
         = Some (take (getMaxInputs (name target))
                   ((λ v, if decide (v = f) then JNull else v)
                      <$> padNull (inputs_or_empty target)
                            (getMaxInputs (name target))))
       ∧ (f ∉ inputs_or_empty target')
       ∧ ∀ j e, j ≠ k → effectChain st !! j = Some e →
           ∃ e', effectChain (connectNodes pg f t p st) !! j = Some e'
                 ∧ kept_node e e'
                 ∧ (∀ q, position e = Some q → position e' = Some q)
                 ∧ (ensured e → e' = e)).
Proof.
  intros Hf Ht Hne Hfind Hp. split.
  - intros Hmax. by eapply connectNodes_zero_inputs.
  - intros Hmax.
    rewrite (connectNodes_accepted pg f t p st k target) by done.
    set (n := getMaxInputs (name target)) in *.
    set (target1 := set_inputs (connectInputs f p n target) target).
    set (st1 := set_effectChain (<[k := target1]> (effectChain st)) st).
    pose proof (renderChain_kept pg st1) as H2.
    assert (effectChain st !! k = Some target) as Hk.
    { by pose proof (proj1 (list_find_Some _ _ _ _) Hfind) as (? & _). }
    assert (effectChain st1 !! k = Some target1) as Hk1.
    { apply list_lookup_insert_eq. by eapply lookup_lt_Some. }
    destruct (Forall2_lookup_l _ _ _ _ _ H2 Hk1) as (target' & Hk' & Hkept).
    assert (inputs target'
            = Some (take n ((λ v, if decide (v = f) then JNull else v)
                              <$> padNull (inputs_or_empty target) n))) as Hin.
    { unfold inputs_or_empty.
      rewrite <-(connectInputs_invalid f p n target) by done.
      by apply (kept_node_inputs _ _ _ Hkept). }
    exists target'. split; [done|]. split; [done|]. split.
    + unfold inputs_or_empty at 1. rewrite Hin. simpl.
      intros (i & Hi & _)%elem_of_take.
      rewrite list_lookup_fmap in Hi.
      destruct (padNull _ _ !! i) as [v|]; simpl in Hi; [|done].
      apply truthy_not_null in Hf as [Hnull _].
      case_decide; congruence.
    + intros j e Hj He.
      apply (Forall2_lookup_l _ _ _ j e (renderChain_completed pg st1)).
      simpl. by rewrite list_lookup_insert_ne.
Qed.

Lemma connectNodes_invalid_port_witness :
  ∃ target',
    effectChain (connectNodes samplePage (JStr "s") (JStr "t") 3
      (sampleEditor [sampleNode "s" "source" [];
                     sampleNode "t" "glitch" [JStr "s"]])) !! 1
    = Some target'
    ∧ inputs target' = Some [JNull].
Proof.
  destruct (connectNodes_invalid_port samplePage
              (sampleEditor [sampleNode "s" "source" [];
                             sampleNode "t" "glitch" [JStr "s"]])
              (JStr "s") (JStr "t") 3 1 (sampleNode "t" "glitch" [JStr "s"]))
    as [_ H].
  - reflexivity.
  - reflexivity.
  - discriminate.
  - reflexivity.
  - vm_compute. lia.
  - destruct H as (target' & Hk & Hin & _); [vm_compute; lia|].
    exists target'. split; [exact Hk|exact Hin].
Defined.

(** C7, as the specification states it, fails: [t] is a glitch node, with
    one input, fed by [s]; [connectNodes(s, t, 1)] has a port index equal
    to the max-input count, and it takes [s] out of [inputs[0]]. *)
Lemma connectNodes_invalid_port_changes :
  let st := sampleEditor [sampleNode "s" "source" [];
                          sampleNode "t" "glitch" [JStr "s"]] in
  let st' := connectNodes samplePage (JStr "s") (JStr "t") 1 st in
  getMaxInputs (JStr "glitch") ≤ 1
  ∧ inputs <$> effectChain st = [Some []; Some [JStr "s"]]
  ∧ inputs <$> effectChain st' = [Some []; Some [JNull]]
  ∧ inputs <$> effectChain st' ≠ inputs <$> effectChain st.
Proof.
  simpl. split; [vm_compute; lia|]. split; [reflexivity|].
  split; [reflexivity|]. vm_compute. discriminate.
Qed.

(** ** addEffect and the single local source *)

(** C8. When the chain already has a node whose effect is source-local,
    [addEffect('source-local')] only calls [showToast] with the warning and
    the error flag: the chain and the id counter are as they were, and on a
    page that has a toast element the warning is on display. *)
Theorem addEffect_second_source_local pg st pos :
  (∃ e, e ∈ effectChain st ∧ name e = JStr "source-local") →
  addEffect pg "source-local" pos st
  = showToast pg "Le nœud source local existe déjà." true st
  ∧ effectChain (addEffect pg "source-local" pos st) = effectChain st
  ∧ nodeIdCounter (addEffect pg "source-local" pos st) = nodeIdCounter st
  ∧ (toastEl pg = true →
     toast (addEffect pg "source-local" pos st)
     = Some ("Le nœud source local existe déjà.", true)).
Proof.
  intros (e & Hin & Hname).
  assert (addEffect pg "source-local" pos st
          = showToast pg "Le nœud source local existe déjà." true st) as ->.
  { unfold addEffect. rewrite bool_decide_eq_true_2 by done.
    rewrite bool_decide_eq_true_2; [done|].
    apply Exists_exists. eauto. }
  unfold showToast. split; [done|].
  destruct (toastEl pg); repeat split; try done.
Qed.

Lemma addEffect_second_source_local_witness :
  effectChain (addEffect samplePage "source-local" None
    (sampleEditor [sampleNode "s" "source" [];
                   sampleNode "l" "source-local" []]))
  = [sampleNode "s" "source" []; sampleNode "l" "source-local" []]
  ∧ toast (addEffect samplePage "source-local" None
      (sampleEditor [sampleNode "s" "source" [];
                     sampleNode "l" "source-local" []]))
    = Some ("Le nœud source local existe déjà.", true).
Proof.
  destruct (addEffect_second_source_local samplePage
              (sampleEditor [sampleNode "s" "source" [];
                             sampleNode "l" "source-local" []]) None)
    as (_ & Hchain & _ & Htoast).
  - exists (sampleNode "l" "source-local" []).
    split; [|reflexivity]. apply list_elem_of_further, list_elem_of_here.
  - split; [exact Hchain|]. apply Htoast. reflexivity.
Defined.

(** ** The ids that makeNodeId makes *)

(** A string cut at its first [c] in one way only. *)
Lemma split_at_first c s1 : ∀ s2 t1 t2,
  free_of c s1 → free_of c s2 →
  s1 +:+ String c t1 = s2 +:+ String c t2 → s1 = s2 ∧ t1 = t2.
Proof.
  induction s1 as [|a s1 IH]; intros [|b s2] t1 t2 H1 H2 Heq; simpl in *.
  - by injection Heq.
  - injection Heq as <- _. by destruct H2.
  - injection Heq as -> _. by destruct H1.
  - injection Heq as -> Heq. destruct H1 as [_ H1], H2 as [_ H2].
    destruct (IH _ _ _ H1 H2 Heq) as [-> ->]. done.
Qed.

Lemma pretty_N_char_digit x : pretty_N_char x ≠ "_"%char.
Proof. unfold pretty_N_char. by repeat case_match. Qed.

Lemma pretty_N_go_free x : ∀ s,
  free_of "_" s → free_of "_" (pretty_N_go x s).
Proof.
  induction (N.lt_wf_0 x) as [x _ IH]; intros s Hs.
  destruct (decide (x = 0%N)) as [->|Hx]; [by rewrite pretty_N_go_0|].
  rewrite pretty_N_go_step by lia.
  apply IH; [apply N.div_lt; lia|].
  split; [apply pretty_N_char_digit|done].
Qed.

Lemma pretty_N_free (x : N) : free_of "_" (pretty x).
Proof.
  unfold pretty, pretty_N. case_decide; [by simpl|].
  by apply pretty_N_go_free.
Qed.

(** Two ids of one page are equal only for the same counter. *)
Lemma nodeIdString_inj pg k k' :
  nodeIdString pg k = nodeIdString pg k' → k = k'.
Proof.
  unfold nodeIdString. intros Heq. simplify_eq/=.
  apply split_at_first in Heq as [_ Heq]; [|apply pretty_N_free..].
  by apply (inj pretty) in Heq.
Qed.

Lemma nodeIdString_truthy pg k : truthy (JStr (nodeIdString pg k)) = true.
Proof. done. Qed.

(** ** normalizeChainData *)

Lemma normalizeEntry_counter pg idx e ctr :
  (normalizeEntry pg idx e ctr).2 = ctr + missing_ids [e].
Proof.
  unfold normalizeEntry, missing_ids.
  destruct (truthy (id e)) eqn:Ht; simpl.
  - rewrite filter_cons_False by congruence. simpl. lia.
  - rewrite filter_cons_True by done. simpl. lia.
Qed.

Lemma missing_ids_cons (e : entry) (l : list entry) :
  missing_ids (e :: l) = missing_ids [e] + missing_ids l.
Proof.
  unfold missing_ids. change (e :: l) with ([e] ++ l)%list.
  by rewrite filter_app, length_app.
Qed.

Lemma normalizeFrom_counter pg chain : ∀ base ctr,
  (normalizeFrom pg base chain ctr).2 = ctr + missing_ids chain.
Proof.
  induction chain as [|e rest IH]; intros base ctr; simpl.
  - unfold missing_ids. simpl. lia.
  - pose proof (normalizeEntry_counter pg base e ctr) as He.
    destruct (normalizeEntry pg base e ctr) as [e' ctr1]; simpl in He.
    specialize (IH (S base) ctr1).
    destruct (normalizeFrom pg (S base) rest ctr1) as [rest' ctr2].
    simpl in *. rewrite (missing_ids_cons e rest). lia.
Qed.

Lemma normalizeFrom_length pg chain : ∀ base ctr,
  length (normalizeFrom pg base chain ctr).1 = length chain.
Proof.
  induction chain as [|e rest IH]; intros base ctr; simpl; [done|].
  destruct (normalizeEntry pg base e ctr) as [e' ctr1].
  specialize (IH (S base) ctr1).
  destruct (normalizeFrom pg (S base) rest ctr1) as [rest' ctr2].
  simpl in *. by rewrite IH.
Qed.

(** The entry at [i] is normalized at index [base + i], with the counter
    moved on by the entries without id before it. *)
Lemma normalizeFrom_lookup pg chain : ∀ base ctr i e,
  chain !! i = Some e →
  (normalizeFrom pg base chain ctr).1 !! i
  = Some (normalizeEntry pg (base + i) e (ctr + missing_ids (take i chain))).1.
Proof.
  induction chain as [|e0 rest IH]; intros base ctr i e Hi; [done|].
  simpl.
  pose proof (normalizeEntry_counter pg base e0 ctr) as He.
  destruct (normalizeEntry pg base e0 ctr) as [e' ctr1] eqn:Hn0; simpl in He.
  specialize (IH (S base) ctr1).
  destruct (normalizeFrom pg (S base) rest ctr1) as [rest' ctr2].
  destruct i as [|i]; simpl in *.
  - injection Hi as <-. unfold missing_ids. simpl.
    by rewrite !Nat.add_0_r, Hn0.
  - rewrite (IH i e Hi), (missing_ids_cons e0 (take i rest)), He.
    do 3 f_equal; lia.
Qed.

Lemma normalizeEntry_canonical pg idx e ctr :
  canonical (normalizeEntry pg idx e ctr).1.
Proof.
  unfold normalizeEntry, canonical.
  destruct (truthy (id e)) eqn:Ht; simpl; eauto.
Qed.

Lemma normalizeEntry_id pg idx e ctr :
  canonical e → normalizeEntry pg idx e ctr = (e, ctr).
Proof.
  destruct e as [i n o ins p]. intros (Ht & Ho & Hins & Hp). simpl in *.
  destruct Ho as [o' ->], Hins as [ins' ->], Hp as [p' ->].
  unfold normalizeEntry. simpl. by rewrite Ht.
Qed.

Lemma normalizeFrom_id pg chain : ∀ base ctr,
  Forall canonical chain → normalizeFrom pg base chain ctr = (chain, ctr).
Proof.
  induction chain as [|e rest IH]; intros base ctr Hall; [done|].
  inversion Hall as [|? ? He Hrest]; subst. simpl.
  by rewrite normalizeEntry_id, IH.
Qed.

Lemma normalizeFrom_canonical pg chain base ctr :
  Forall canonical (normalizeFrom pg base chain ctr).1.
Proof.
  apply Forall_lookup_2. intros i n Hn.
  destruct (chain !! i) as [e|] eqn:He.
  - rewrite (normalizeFrom_lookup pg chain base ctr i e He) in Hn.
    injection Hn as <-. apply normalizeEntry_canonical.
  - apply lookup_ge_None in He. apply lookup_lt_Some in Hn.
    rewrite normalizeFrom_length in Hn. lia.
Qed.

Lemma missing_ids_app (l1 l2 : list entry) :
  missing_ids (l1 ++ l2) = missing_ids l1 + missing_ids l2.
Proof. unfold missing_ids. by rewrite filter_app, length_app. Qed.

Lemma missing_ids_lookup (l : list entry) i e :
  l !! i = Some e → truthy (id e) = false →
  S (missing_ids (take i l)) ≤ missing_ids l.
Proof.
  intros Hi Ht. rewrite <-(take_drop_middle l i e Hi) at 2.
  rewrite missing_ids_app, (missing_ids_cons e).
  assert (missing_ids [e] = 1) as ->; [|lia].
  unfold missing_ids. by rewrite filter_cons_True.
Qed.

Lemma missing_ids_take_mono (l : list entry) i j e :
  i < j → l !! i = Some e → truthy (id e) = false →
  S (missing_ids (take i l)) ≤ missing_ids (take j l).
Proof.
  intros Hij Hi Ht.
  apply (missing_ids_lookup (take j l) i e) in Ht as Hle.
  - by rewrite take_take, Nat.min_l in Hle by lia.
  - by rewrite lookup_take_lt.
Qed.

(** C9. [normalizeChainData] maps an array of entries to an array of the
    same length of entries in canonical shape. It keeps the name of every
    entry, and its id, options, inputs and position when they are there (an
    id that is truthy, an inputs value that is an array, options and a
    position that are truthy). An entry without id gets the id that
    [makeNodeId] makes at the running counter: the [k]-th such entry of the
    array gets the counter [ctr + k], and two such entries get different
    ids. Missing options become the empty object, missing inputs the empty
    array, and a missing position the grid slot of the index of the entry:
    [x = 120 + (idx mod 4) * 360], [y = 120 + floor(idx / 4) * 160]. On a
    chain in canonical shape it is the identity, so normalizing twice is
    normalizing once; what is not an array becomes the empty chain. *)
Theorem normalizeChainData_canonical pg chain ctr :
  let out := (normalizeChainData pg (Some chain) ctr).1 in
  let ctr' := (normalizeChainData pg (Some chain) ctr).2 in
  length out = length chain
  ∧ (∀ idx e, chain !! idx = Some e →
       ∃ n k, out !! idx = Some n
         ∧ k = S (ctr + missing_ids (take idx chain))
         ∧ name n = name e
         ∧ (truthy (id e) = true → id n = id e)
         ∧ (truthy (id e) = false →
              id n = JStr (nodeIdString pg k) ∧ ctr < k ∧ k ≤ ctr')
         ∧ (∀ o, options e = Some o → options n = Some o)
         ∧ (options e = None → options n = Some ∅)
         ∧ (∀ l, inputs e = Some l → inputs n = Some l)
         ∧ (inputs e = None → inputs n = Some [])
         ∧ (∀ p, position e = Some p → position n = Some p)
         ∧ (position e = None →
              position n
              = Some (Point (inject_Z (120 + Z.of_nat (idx mod 4) * 360))
                            (inject_Z (120 + Z.of_nat (idx / 4) * 160)))))
  ∧ (∀ i j ei ej ni nj,
       i ≠ j → chain !! i = Some ei → chain !! j = Some ej →
       truthy (id ei) = false → truthy (id ej) = false →
       out !! i = Some ni → out !! j = Some nj → id ni ≠ id nj)
  ∧ Forall canonical out
  ∧ (Forall canonical chain →
       normalizeChainData pg (Some chain) ctr = (chain, ctr))
  ∧ (∀ ctr2, normalizeChainData pg (Some out) ctr2 = (out, ctr2))
  ∧ normalizeChainData pg None ctr = ([], ctr).
Proof.
  simpl. split; [apply normalizeFrom_length|].
  assert (∀ idx e, chain !! idx = Some e → truthy (id e) = false →
          ∀ n, (normalizeFrom pg 0 chain ctr).1 !! idx = Some n →
          id n = JStr (nodeIdString pg (S (ctr + missing_ids (take idx chain)))))
    as Hgen.
  { intros idx e He Ht n Hn.
    rewrite (normalizeFrom_lookup pg chain 0 ctr idx e He) in Hn.
    injection Hn as <-. unfold normalizeEntry. by rewrite Ht. }
  split; [|split; [|split; [|split; [|split]]]].
  - intros idx e He.
    pose proof (normalizeFrom_lookup pg chain 0 ctr idx e He) as Hn.
    eexists _, _. split; [exact Hn|]. split; [reflexivity|].
    unfold normalizeEntry. simpl.
    destruct (truthy (id e)) eqn:Ht; simpl.
    + repeat split; try done; try (by intros ? ->); by intros ->.
    + repeat split; try done; try (by intros ? ->); try (by intros ->).
      * lia.
      * rewrite normalizeFrom_counter.
        pose proof (missing_ids_lookup chain idx e He Ht). lia.
  - intros i j ei ej ni nj Hij Hi Hj Hti Htj Hni Hnj.
    rewrite (Hgen i ei Hi Hti ni Hni), (Hgen j ej Hj Htj nj Hnj).
    intros Heq. apply (inj JStr), nodeIdString_inj in Heq.
    destruct (decide (i < j)) as [Hlt|Hge].
    + pose proof (missing_ids_take_mono chain i j ei Hlt Hi Hti). lia.
    + assert (j < i) as Hlt by lia.
      pose proof (missing_ids_take_mono chain j i ej Hlt Hj Htj). lia.
  - apply normalizeFrom_canonical.
  - apply normalizeFrom_id.
  - intros ctr2. apply normalizeFrom_id, normalizeFrom_canonical.
  - done.
Qed.

Lemma normalizeChainData_canonical_witness :
  normalizeChainData samplePage
    (Some [sampleNode "a" "source" []; sampleNode "b" "mix" [JStr "a"; JNull]])
    7
  = ([sampleNode "a" "source" []; sampleNode "b" "mix" [JStr "a"; JNull]], 7).
Proof.
  destruct (normalizeChainData_canonical samplePage
              [sampleNode "a" "source" [];
               sampleNode "b" "mix" [JStr "a"; JNull]] 7)
    as (_ & _ & _ & _ & Hid & _).
  apply Hid. repeat constructor; simpl; eauto.
Defined.

(** ** The wheel zoom *)

Local Open Scope Q_scope.

Lemma clampScale_range v : 45 # 100 <= clampScale v ∧ clampScale v <= 19 # 10.
Proof.
  unfold clampScale. split.
  - apply Q.min_glb; [done|apply Q.le_max_l].
  - apply Q.le_min_l.
Qed.


Lemma clampScale_nonzero v : ¬ clampScale v == 0.
Proof.
  intros Heq. destruct (clampScale_range v) as [Hlo _].
  rewrite Heq in Hlo. by apply Hlo.
Qed.


Section wheel_zoom.

(** A page on which [setupZoom] installs the wheel handler and the handler
    finds its viewport: a stage with bounding box [r], not a mobile page. *)
Context (pg : page) (r : rect).
Hypothesis Hstage : nodeStage pg = Some r.
Hypothesis Hdesktop : isMobile pg = false.
Hypothesis Hviewport : nodeViewport pg = true.




End wheel_zoom.


Section wheel_zoom_double.

Import PrimFloat.
#[local] Set Warnings "-inexact-float".
Local Open Scope float_scope.


End wheel_zoom_double.

Local Close Scope Q_scope.
Local Open Scope list_scope.

(** * More properties of the editor *)

(** ** ensurePositions *)

Lemma ensureEntry_ensured pg idx e ctr : ensured (ensureEntry pg idx e ctr).1.
Proof.
  unfold ensureEntry, ensured.
  destruct e as [i n o ins p]; simpl.
  destruct p, (truthy i) eqn:Ht, ins; simpl; rewrite ?Ht; simpl; eauto.
Qed.

Lemma ensureEntry_id pg idx e ctr :
  ensured e → ensureEntry pg idx e ctr = (e, ctr).
Proof.
  destruct e as [i n o ins p]. intros (Ht & Hp & Hins). simpl in *.
  destruct Hp as [p' ->], Hins as [ins' ->].
  unfold ensureEntry. simpl. by rewrite Ht.
Qed.

Lemma ensureEntry_counter pg idx e ctr :
  (ensureEntry pg idx e ctr).2 = ctr + missing_ids [e].
Proof.
  unfold ensureEntry, missing_ids.
  destruct e as [i n o ins p]; simpl.
  destruct (truthy i) eqn:Ht.
  - rewrite filter_cons_False by (simpl; congruence).
    destruct p; simpl; rewrite Ht; simpl; lia.
  - rewrite filter_cons_True by done.
    destruct p; simpl; rewrite Ht; simpl; lia.
Qed.

Lemma ensureFrom_ensured pg chain : ∀ idx ctr,
  Forall ensured (ensureFrom pg idx chain ctr).1.
Proof.
  induction chain as [|e rest IH]; intros idx ctr; simpl; [constructor|].
  pose proof (ensureEntry_ensured pg idx e ctr) as He.
  destruct (ensureEntry pg idx e ctr) as [e' ctr1]; simpl in He.
  specialize (IH (S idx) ctr1).
  destruct (ensureFrom pg (S idx) rest ctr1) as [rest' ctr2]; simpl in *.
  by constructor.
Qed.

Lemma ensureFrom_id pg chain : ∀ idx ctr,
  Forall ensured chain → ensureFrom pg idx chain ctr = (chain, ctr).
Proof.
  induction chain as [|e rest IH]; intros idx ctr Hall; [done|].
  inversion Hall as [|? ? He Hrest]; subst. simpl.
  by rewrite ensureEntry_id, IH.
Qed.

Lemma ensureFrom_counter pg chain : ∀ idx ctr,
  (ensureFrom pg idx chain ctr).2 = ctr + missing_ids chain.
Proof.
  induction chain as [|e rest IH]; intros idx ctr; simpl.
  - unfold missing_ids. simpl. lia.
  - pose proof (ensureEntry_counter pg idx e ctr) as He.
    destruct (ensureEntry pg idx e ctr) as [e' ctr1]; simpl in He.
    specialize (IH (S idx) ctr1).
    destruct (ensureFrom pg (S idx) rest ctr1) as [rest' ctr2].
    simpl in *. rewrite (missing_ids_cons e rest). lia.
Qed.

Lemma ensurePositions_id pg st :
  Forall ensured (effectChain st) → ensurePositions pg st = st.
Proof.
  intros Hall. unfold ensurePositions. rewrite ensureFrom_id by done.
  by destruct st.
Qed.

Lemma ensurePositions_ensured pg st :
  Forall ensured (effectChain (ensurePositions pg st)).
Proof. rewrite ensurePositions_chain. apply ensureFrom_ensured. Qed.

(** [ensurePositions] completes every entry and is then done: after it
    every entry has an id, a position and an [inputs] array; names, options
    and the inputs and ids that were there are kept; the id counter moves on
    by the number of entries that had no id; running it again changes
    nothing. *)
Theorem ensurePositions_completes pg st :
  Forall ensured (effectChain (ensurePositions pg st))
  ∧ Forall2 same_node (effectChain st) (effectChain (ensurePositions pg st))
  ∧ nodeIdCounter (ensurePositions pg st)
    = nodeIdCounter st + missing_ids (effectChain st)
  ∧ ensurePositions pg (ensurePositions pg st) = ensurePositions pg st.
Proof.
  split; [apply ensurePositions_ensured|]. split; [|split].
  - rewrite ensurePositions_chain. apply ensureFrom_same.
  - unfold ensurePositions.
    pose proof (ensureFrom_counter pg (effectChain st) 0 (nodeIdCounter st)).
    by destruct (ensureFrom pg 0 (effectChain st) (nodeIdCounter st)).
  - apply ensurePositions_id, ensurePositions_ensured.
Qed.

(** Rendering leaves a chain alone that is complete. *)
Lemma renderChainList_id pg st :
  Forall ensured (effectChain st) → renderChainList pg st = st.
Proof.
  intros Hall. unfold renderChainList.
  destruct (chainListView pg); [by apply ensurePositions_id|done].
Qed.

Lemma renderListIfActive_id pg st :
  Forall ensured (effectChain st) → renderListIfActive pg st = st.
Proof.
  intros Hall. unfold renderListIfActive.
  destruct (_ && _); [by apply renderChainList_id|done].
Qed.

Lemma renderChain_id pg st :
  Forall ensured (effectChain st) → renderChain pg st = st.
Proof.
  intros Hall. unfold renderChain. destruct (effectChainContainer pg); [|done].
  rewrite ensurePositions_id by done. by apply renderListIfActive_id.
Qed.

(** ** makeNodeId and getDefaultPosition *)

(** [makeNodeId] never repeats itself: the id it makes is a non-empty
    string, the counter goes up by one, and the ids made at two counters
    are equal only when the counters are, whatever the clock says. *)
Theorem makeNodeId_fresh pg ctr :
  truthy (makeNodeId pg ctr).1 = true
  ∧ (makeNodeId pg ctr).2 = S ctr
  ∧ ∀ ctr', (makeNodeId pg ctr).1 = (makeNodeId pg ctr').1 ↔ ctr = ctr'.
Proof.
  split; [done|]. split; [done|].
  intros ctr'. unfold makeNodeId. simpl. split; [|by intros ->].
  intros Heq. apply (inj JStr), nodeIdString_inj in Heq. lia.
Qed.

Lemma inject_Z_inj a b : inject_Z a = inject_Z b → a = b.
Proof. unfold inject_Z. by intros [= ->]. Qed.

(** The grid of [getDefaultPosition] has four columns, 360 apart, and rows
    160 apart, and no two indices share a slot. *)
Theorem getDefaultPosition_grid idx :
  (∀ idx', getDefaultPosition idx = getDefaultPosition idx' ↔ idx = idx')
  ∧ px (getDefaultPosition (idx + 4)) = px (getDefaultPosition idx)
  ∧ py (getDefaultPosition (idx + 4))
    = inject_Z (Qnum (py (getDefaultPosition idx)) + 160)
  ∧ (idx mod 4 ≠ 3 →
     px (getDefaultPosition (idx + 1))
     = inject_Z (Qnum (px (getDefaultPosition idx)) + 360)
     ∧ py (getDefaultPosition (idx + 1)) = py (getDefaultPosition idx)).
Proof.
  split; [|split; [|split]].
  - intros idx'. split; [|by intros ->].
    intros Heq.
    pose proof (f_equal px Heq) as Hx. pose proof (f_equal py Heq) as Hy.
    unfold getDefaultPosition in Hx, Hy. cbn [px py] in Hx, Hy.
    apply inject_Z_inj in Hx, Hy.
    pose proof (Nat.div_mod_eq idx 4). pose proof (Nat.div_mod_eq idx' 4).
    lia.
  - unfold getDefaultPosition. cbn [px py]. f_equal.
    replace (idx + 4) with (idx + 1 * 4) by lia.
    by rewrite Nat.Div0.mod_add.
  - unfold getDefaultPosition. cbn [px py Qnum inject_Z]. f_equal.
    replace (idx + 4) with (idx + 1 * 4) by lia.
    rewrite Nat.div_add by lia. lia.
  - intros Hcol. unfold getDefaultPosition. cbn [px py Qnum inject_Z].
    pose proof (Nat.div_mod_eq idx 4) as Hd.
    pose proof (Nat.mod_upper_bound idx 4 ltac:(lia)) as Hm.
    assert ((idx + 1) / 4 = idx / 4) as Hq.
    { symmetry. apply (Nat.div_unique (idx + 1) 4 (idx / 4) (idx mod 4 + 1)); lia. }
    assert ((idx + 1) mod 4 = idx mod 4 + 1) as Hr.
    { symmetry. apply (Nat.mod_unique (idx + 1) 4 (idx / 4) (idx mod 4 + 1)); lia. }
    rewrite Hq, Hr. split; f_equal; lia.
Qed.

Lemma getDefaultPosition_grid_witness :
  px (getDefaultPosition 2) = inject_Z 840
  ∧ py (getDefaultPosition 2) = py (getDefaultPosition 1).
Proof.
  destruct (getDefaultPosition_grid 1) as (_ & _ & _ & Hnext).
  apply Hnext. vm_compute. lia.
Defined.

(** ** The operations on a complete chain *)

Lemma ensured_has_id e : ensured e → has_id e.
Proof. by intros (? & _). Qed.

Lemma Forall_ensured_has_id l : Forall ensured l → Forall has_id l.
Proof. intros Hall. eapply Forall_impl; [done|apply ensured_has_id]. Qed.

Lemma set_inputs_ensured l e : ensured e → ensured (set_inputs l e).
Proof. intros (? & ? & _). repeat split; simpl; eauto. Qed.

Lemma set_position_ensured p e : ensured e → ensured (set_position p e).
Proof. intros (? & _ & ?). repeat split; simpl; eauto. Qed.

Lemma retargetEntry_ensured n e : ensured e → ensured (retargetEntry n e).
Proof.
  intros (Hid & Hp & _). unfold retargetEntry.
  case_decide; repeat split; simpl; eauto.
Qed.

Lemma retargetEntry_id n e : id (retargetEntry n e) = id e.
Proof. unfold retargetEntry. by case_decide. Qed.

Lemma getEntryById_lookup t l k e :
  getEntryById t l = Some (k, e) → l !! k = Some e ∧ id e = t.
Proof.
  unfold getEntryById. intros Hfind.
  by pose proof (proj1 (list_find_Some _ _ _ _) Hfind) as (? & ? & _).
Qed.

Lemma connectNodes_exact pg f t p st k target :
  Forall ensured (effectChain st) →
  truthy f = true → f ≠ t →
  getEntryById t (effectChain st) = Some (k, target) →
  getMaxInputs (name target) ≠ 0 →
  connectNodes pg f t p st
  = set_effectChain
      (<[k := set_inputs
                (connectInputs f p (getMaxInputs (name target)) target)
                target]> (effectChain st)) st.
Proof.
  intros Hall Hf Hne Hfind Hmax.
  destruct (getEntryById_lookup _ _ _ _ Hfind) as [Hk Hid].
  pose proof (Forall_lookup_1 _ _ _ _ Hall Hk) as He.
  rewrite (connectNodes_accepted pg f t p st k target); try done.
  - apply renderChain_id. simpl.
    apply Forall_insert; [done|by apply set_inputs_ensured].
  - rewrite <-Hid. by apply ensured_has_id.
Qed.

Lemma removeEffectById_exact pg nodeId st idx e0 :
  Forall ensured (effectChain st) →
  list_find (λ e, id e = nodeId) (effectChain st) = Some (idx, e0) →
  removeEffectById pg nodeId st
  = set_effectChain (purgeInputs nodeId <$> delete idx (effectChain st)) st.
Proof.
  intros Hall Hfind. unfold removeEffectById. rewrite Hfind.
  assert (Forall ensured (purgeInputs nodeId <$> delete idx (effectChain st)))
    as Hall'.
  { apply Forall_fmap. eapply Forall_impl; [by apply Forall_delete|].
    intros e He. by apply set_inputs_ensured. }
  rewrite renderChain_id by done. by rewrite renderListIfActive_id.
Qed.

Lemma retargetNode_exact pg k n st e :
  Forall ensured (effectChain st) →
  effectChain st !! k = Some e →
  retargetNode pg k n st
  = set_effectChain (<[k := retargetEntry n e]> (effectChain st)) st
  ∧ retargetNodeList pg k n st
    = set_effectChain (<[k := retargetEntry n e]> (effectChain st)) st.
Proof.
  intros Hall Hk. unfold retargetNode, retargetNodeList. rewrite Hk.
  assert (Forall ensured (<[k := retargetEntry n e]> (effectChain st))) as Hall'.
  { apply Forall_insert; [done|]. apply retargetEntry_ensured.
    by apply (Forall_lookup_1 _ _ _ _ Hall Hk). }
  rewrite renderChain_id by done. split; [done|].
  by rewrite renderChainList_id.
Qed.

(** The two neighbours at [i] and [i + 1] change places. *)
Lemma swap_neighbours {A} (l : list A) i a b :
  l !! i = Some a → l !! S i = Some b →
  <[S i := a]> (<[i := b]> l) = take i l ++ b :: a :: drop (S (S i)) l
  ∧ l = take i l ++ a :: b :: drop (S (S i)) l.
Proof.
  intros Ha Hb.
  assert (l = take i l ++ a :: b :: drop (S (S i)) l) as Hl.
  { rewrite <-(take_drop_middle l i a Ha) at 1. do 2 f_equal.
    rewrite <-(take_drop_middle l (S i) b Hb) at 1.
    by rewrite drop_app_length' by (rewrite length_take; apply lookup_lt_Some in Hb; lia). }
  split; [|done].
  assert (length (take i l) = i) as Hlen.
  { rewrite length_take. apply lookup_lt_Some in Ha. lia. }
  rewrite Hl at 1.
  rewrite (insert_app_r_alt _ _ i) by lia.
  rewrite Hlen, Nat.sub_diag. simpl.
  rewrite (insert_app_r_alt _ _ (S i)) by lia.
  rewrite Hlen. replace (S i - i) with 1 by lia. done.
Qed.

Lemma moveDown_exact pg idx st a b :
  Forall ensured (effectChain st) →
  effectChain st !! idx = Some a → effectChain st !! S idx = Some b →
  moveDown pg idx st
  = set_effectChain
      (take idx (effectChain st) ++ b :: a :: drop (S (S idx)) (effectChain st))
      st
  ∧ moveUp pg (S idx) st = Some (moveDown pg idx st).
Proof.
  intros Hall Ha Hb.
  destruct (swap_neighbours _ _ _ _ Ha Hb) as [Hswap Hl].
  assert (Forall ensured
            (take idx (effectChain st) ++ b :: a :: drop (S (S idx)) (effectChain st)))
    as Hall'.
  { rewrite Hl in Hall. revert Hall. rewrite !Forall_app, !Forall_cons.
    tauto. }
  assert (moveDown pg idx st
          = set_effectChain
              (take idx (effectChain st) ++ b :: a :: drop (S (S idx)) (effectChain st))
              st) as Hdown.
  { unfold moveDown. rewrite Ha.
    rewrite decide_True by (apply lookup_lt_Some in Hb; lia).
    replace (idx + 1) with (S idx) by lia. rewrite Hb, Hswap.
    rewrite renderChain_id by done. by rewrite renderChainList_id. }
  split; [done|]. rewrite Hdown.
  unfold moveUp. replace (S idx - 1) with idx by lia.
  rewrite Hb, Ha, decide_True by lia. rewrite Hswap.
  rewrite renderChain_id by done. by rewrite renderChainList_id.
Qed.

Lemma moveDown_twice pg idx st a b :
  Forall ensured (effectChain st) →
  effectChain st !! idx = Some a → effectChain st !! S idx = Some b →
  moveDown pg idx (moveDown pg idx st) = st.
Proof.
  intros Hall Ha Hb.
  destruct (swap_neighbours _ _ _ _ Ha Hb) as [_ Hl].
  destruct (moveDown_exact pg idx st a b Hall Ha Hb) as [Hdown _].
  assert (length (take idx (effectChain st)) = idx) as Hlen.
  { rewrite length_take. apply lookup_lt_Some in Ha. lia. }
  set (l' := take idx (effectChain st) ++ b :: a :: drop (S (S idx)) (effectChain st))
    in *.
  assert (l' !! idx = Some b) as Hb'.
  { unfold l'. rewrite lookup_app_r by lia. by rewrite Hlen, Nat.sub_diag. }
  assert (l' !! S idx = Some a) as Ha'.
  { unfold l'. rewrite lookup_app_r by lia.
    by replace (S idx - length (take idx (effectChain st))) with 1 by lia. }
  assert (Forall ensured l') as Hall'.
  { rewrite Hl in Hall. revert Hall. unfold l'.
    rewrite !Forall_app, !Forall_cons. tauto. }
  rewrite Hdown.
  destruct (moveDown_exact pg idx (set_effectChain l' st) b a Hall' Hb' Ha')
    as [-> _].
  simpl.
  assert (take idx l' = take idx (effectChain st)) as ->.
  { unfold l'. by rewrite take_app_length' by done. }
  assert (drop (S (S idx)) l' = drop (S (S idx)) (effectChain st)) as ->.
  { unfold l'. rewrite drop_app_ge by lia. rewrite Hlen.
    by replace (S (S idx) - idx) with 2 by lia. }
  rewrite <-Hl. by destruct st.
Qed.

(** The order buttons of the list view swap neighbours. On a complete chain
    the down button of item [idx] puts the entry below in its place and it
    one further; the up button of the item below does the very same; twice
    down on [idx] gives back the state; and the chain is a permutation of
    what it was, with every entry as it was. *)
Theorem moveDown_swaps pg idx st a b :
  Forall ensured (effectChain st) →
  effectChain st !! idx = Some a → effectChain st !! S idx = Some b →
  effectChain (moveDown pg idx st)
  = take idx (effectChain st) ++ b :: a :: drop (S (S idx)) (effectChain st)
  ∧ moveUp pg (S idx) st = Some (moveDown pg idx st)
  ∧ moveDown pg idx (moveDown pg idx st) = st
  ∧ effectChain (moveDown pg idx st) ≡ₚ effectChain st.
Proof.
  intros Hall Ha Hb.
  destruct (moveDown_exact pg idx st a b Hall Ha Hb) as [Hdown Hup].
  split; [by rewrite Hdown|]. split; [done|].
  split; [by apply moveDown_twice with a b|].
  rewrite Hdown. simpl.
  destruct (swap_neighbours _ _ _ _ Ha Hb) as [_ Hl].
  rewrite Hl at 3. apply Permutation_app_head, perm_swap.
Qed.

Lemma moveDown_swaps_witness :
  effectChain (moveDown samplePage 0
    (sampleEditor [sampleNode "a" "source" []; sampleNode "b" "glitch" [JStr "a"];
                   sampleNode "c" "mix" []]))
  = [sampleNode "b" "glitch" [JStr "a"]; sampleNode "a" "source" [];
     sampleNode "c" "mix" []].
Proof.
  apply (moveDown_swaps samplePage 0
           (sampleEditor [sampleNode "a" "source" [];
                          sampleNode "b" "glitch" [JStr "a"];
                          sampleNode "c" "mix" []])
           (sampleNode "a" "source" []) (sampleNode "b" "glitch" [JStr "a"])).
  - repeat constructor; simpl; eauto.
  - reflexivity.
  - reflexivity.
Defined.

Lemma moveUp_first pg st : moveUp pg 0 st = Some st.
Proof. done. Qed.

Lemma moveDown_last pg idx st :
  length (effectChain st) ≤ S idx → moveDown pg idx st = st.
Proof.
  intros Hlen. unfold moveDown. destruct (effectChain st !! idx); [|done].
  by rewrite decide_False by lia.
Qed.

(** The up handler runs to its end exactly for the items below the first:
    it returns a state when [idx] is 0, where it does nothing, and when
    [idx] is the index of an entry, and only then. *)
Lemma moveUp_returns pg idx st :
  is_Some (moveUp pg idx st) ↔ idx = 0 ∨ idx < length (effectChain st).
Proof.
  unfold moveUp. destruct (decide (0 < idx)) as [Hpos|Hpos].
  - destruct (effectChain st !! idx) as [cur|] eqn:Hcur.
    + pose proof (lookup_lt_Some _ _ _ Hcur) as Hlt.
      destruct (lookup_lt_is_Some_2 (effectChain st) (idx - 1)) as [prev ->];
        [lia|].
      split; [right; lia|eauto].
    + apply lookup_ge_None in Hcur.
      split; [by intros [? ?]|]. intros [?|?]; lia.
  - split; [intros _; left; lia|eauto].
Qed.

(** On a complete chain the up button of an item is the down button of the
    item above it. *)
Lemma moveUp_as_down pg idx st :
  Forall ensured (effectChain st) →
  idx = 0 ∨ idx < length (effectChain st) →
  moveUp pg idx st
  = Some (match idx with 0 => st | S i => moveDown pg i st end).
Proof.
  intros Hall Hidx. destruct idx as [|i]; [apply moveUp_first|].
  destruct Hidx as [?|Hlt]; [done|].
  destruct (lookup_lt_is_Some_2 (effectChain st) (S i)) as [b Hb]; [done|].
  destruct (lookup_lt_is_Some_2 (effectChain st) i) as [a Ha]; [lia|].
  by destruct (moveDown_exact pg i st a b Hall Ha Hb) as [_ ->].
Qed.

(** At the ends of the list the order buttons do nothing: the up button of
    the first item and the down button of the last one leave the state as
    it is, and so does the down handler for an index that has no item, by
    its guard [idx < effectChain.length - 1]. The up handler has no such
    guard: for an index above 0 that has no item, which no button has, it
    does not run to its end. *)
Theorem move_at_ends pg idx st :
  moveUp pg 0 st = Some st
  ∧ (length (effectChain st) ≤ S idx → moveDown pg idx st = st)
  ∧ (0 < idx → length (effectChain st) ≤ idx → moveUp pg idx st = None).
Proof.
  split; [apply moveUp_first|]. split; [apply moveDown_last|].
  intros Hpos Hlen. apply eq_None_not_Some.
  rewrite moveUp_returns. lia.
Qed.

Lemma move_at_ends_witness :
  moveDown samplePage 1
    (sampleEditor [sampleNode "a" "source" []; sampleNode "b" "glitch" []])
  = sampleEditor [sampleNode "a" "source" []; sampleNode "b" "glitch" []].
Proof.
  apply (move_at_ends samplePage 1
           (sampleEditor [sampleNode "a" "source" []; sampleNode "b" "glitch" []])).
  simpl. lia.
Defined.

(** ** Complete chains stay complete *)

Lemma addEffect_rejected pg n pos st :
  n = "source-local" →
  Exists (λ e, name e = JStr "source-local") (effectChain st) →
  addEffect pg n pos st
  = showToast pg "Le nœud source local existe déjà." true st.
Proof.
  intros -> Hex. unfold addEffect.
  by rewrite !bool_decide_eq_true_2 by done.
Qed.

Lemma addedEntry_ensured pg def pos st : ensured (addedEntry pg def pos st).
Proof. repeat split; simpl; eauto. Qed.

Lemma addEffect_exact pg n pos st def :
  Forall ensured (effectChain st) →
  ¬ (n = "source-local"
     ∧ Exists (λ e, name e = JStr "source-local") (effectChain st)) →
  chosenDefinition pg n = Some def →
  addEffect pg n pos st
  = set_nodeIdCounter (S (nodeIdCounter st))
      (set_effectChain (effectChain st ++ [addedEntry pg def pos st]) st).
Proof.
  intros Hall Hno Hdef. unfold addEffect.
  assert (bool_decide (n = "source-local")
          && bool_decide (Exists (λ e, name e = JStr "source-local")
                            (effectChain st)) = false) as ->.
  { apply andb_false_iff.
    destruct (decide (n = "source-local")) as [Hn|Hn].
    - right. apply bool_decide_eq_false_2. tauto.
    - left. by apply bool_decide_eq_false_2. }
  unfold chosenDefinition in Hdef. rewrite Hdef. simpl.
  assert (Forall ensured (effectChain st ++ [addedEntry pg def pos st])) as Hall'.
  { apply Forall_app. split; [done|]. constructor; [|constructor].
    apply addedEntry_ensured. }
  rewrite renderChain_id by done. by rewrite renderListIfActive_id.
Qed.

Lemma addEffect_no_definition pg n pos st :
  ¬ (n = "source-local"
     ∧ Exists (λ e, name e = JStr "source-local") (effectChain st)) →
  chosenDefinition pg n = None →
  addEffect pg n pos st = st.
Proof.
  intros Hno Hdef. unfold addEffect.
  assert (bool_decide (n = "source-local")
          && bool_decide (Exists (λ e, name e = JStr "source-local")
                            (effectChain st)) = false) as ->.
  { apply andb_false_iff.
    destruct (decide (n = "source-local")) as [Hn|Hn].
    - right. apply bool_decide_eq_false_2. tauto.
    - left. by apply bool_decide_eq_false_2. }
  unfold chosenDefinition in Hdef. by rewrite Hdef.
Qed.

Lemma showToast_chain pg m b st :
  effectChain (showToast pg m b st) = effectChain st.
Proof. unfold showToast. by destruct (toastEl pg). Qed.

Lemma addEffect_ensured pg n pos st :
  Forall ensured (effectChain st) →
  Forall ensured (effectChain (addEffect pg n pos st)).
Proof.
  intros Hall.
  destruct (decide (n = "source-local"
    ∧ Exists (λ e, name e = JStr "source-local") (effectChain st)))
    as [[Hn Hex]|Hno].
  - rewrite addEffect_rejected by done. by rewrite showToast_chain.
  - destruct (chosenDefinition pg n) as [def|] eqn:Hdef.
    + rewrite (addEffect_exact pg n pos st def) by done. simpl.
      apply Forall_app. split; [done|]. constructor; [|constructor].
      apply addedEntry_ensured.
    + by rewrite addEffect_no_definition.
Qed.

Lemma connectNodes_ensured pg f t p st :
  Forall ensured (effectChain st) →
  Forall ensured (effectChain (connectNodes pg f t p st)).
Proof.
  intros Hall. unfold connectNodes.
  destruct (negb (truthy f) || negb (truthy t) || bool_decide (f = t)); [done|].
  destruct (getEntryById t (effectChain st)) as [[k target]|] eqn:Hfind; [|done].
  case_decide; [done|].
  destruct (getEntryById_lookup _ _ _ _ Hfind) as [Hk _].
  assert (Forall ensured
            (<[k := set_inputs
                      (connectInputs f p (getMaxInputs (name target)) target)
                      target]> (effectChain st))) as Hall'.
  { apply Forall_insert; [done|]. apply set_inputs_ensured.
    by apply (Forall_lookup_1 _ _ _ _ Hall Hk). }
  by rewrite renderChain_id.
Qed.

Lemma removeEffectById_ensured pg nodeId st :
  Forall ensured (effectChain st) →
  Forall ensured (effectChain (removeEffectById pg nodeId st)).
Proof.
  intros Hall.
  destruct (list_find (λ e, id e = nodeId) (effectChain st))
    as [[idx e0]|] eqn:Hfind.
  - rewrite (removeEffectById_exact pg nodeId st idx e0) by done. simpl.
    apply Forall_fmap. eapply Forall_impl; [by apply Forall_delete|].
    intros e He. by apply set_inputs_ensured.
  - unfold removeEffectById. by rewrite Hfind.
Qed.

Lemma retargetNode_ensured pg k n st :
  Forall ensured (effectChain st) →
  Forall ensured (effectChain (retargetNode pg k n st))
  ∧ Forall ensured (effectChain (retargetNodeList pg k n st)).
Proof.
  intros Hall. destruct (effectChain st !! k) as [e|] eqn:Hk.
  - destruct (retargetNode_exact pg k n st e Hall Hk) as [-> ->]. simpl.
    assert (Forall ensured (<[k := retargetEntry n e]> (effectChain st)));
      [|done].
    apply Forall_insert; [done|]. apply retargetEntry_ensured.
    by apply (Forall_lookup_1 _ _ _ _ Hall Hk).
  - unfold retargetNode, retargetNodeList. by rewrite Hk.
Qed.

Lemma moveDown_ensured pg idx st :
  Forall ensured (effectChain st) →
  Forall ensured (effectChain (moveDown pg idx st)).
Proof.
  intros Hall.
  destruct (effectChain st !! idx) as [a|] eqn:Ha.
  - destruct (effectChain st !! S idx) as [b|] eqn:Hb.
    + destruct (moveDown_exact pg idx st a b Hall Ha Hb) as [-> _]. simpl.
      destruct (swap_neighbours _ _ _ _ Ha Hb) as [_ Hl].
      rewrite Hl in Hall. revert Hall.
      rewrite !Forall_app, !Forall_cons. tauto.
    + apply lookup_ge_None in Hb.
      by rewrite moveDown_last by lia.
  - unfold moveDown. by rewrite Ha.
Qed.

Lemma move_ensured pg idx st :
  Forall ensured (effectChain st) →
  (idx = 0 ∨ idx < length (effectChain st) →
   ∃ st', moveUp pg idx st = Some st' ∧ Forall ensured (effectChain st'))
  ∧ Forall ensured (effectChain (moveDown pg idx st)).
Proof.
  intros Hall. split; [|by apply moveDown_ensured].
  intros Hidx. eexists. split; [by apply moveUp_as_down|].
  destruct idx; [done|by apply moveDown_ensured].
Qed.

Lemma portInClick_chain pg k idx st :
  effectChain (portInClick pg k idx st) = effectChain st
  ∨ ∃ e, effectChain st !! k = Some e
         ∧ effectChain (portInClick pg k idx st)
           = effectChain (connectNodes pg (selectedOutput st) (id e) idx st).
Proof.
  unfold portInClick. destruct (effectChain st !! k) as [e|]; [|by left].
  destruct (truthy (selectedOutput st)); simpl.
  - right. by exists e.
  - left. apply showToast_chain.
Qed.

Lemma portOutClick_chain pg k st :
  effectChain (portOutClick pg k st) = effectChain st.
Proof.
  unfold portOutClick. destruct (effectChain st !! k); [|done].
  by rewrite showToast_chain.
Qed.

Lemma nodeDragMove_ensured d cx cy st :
  Forall ensured (effectChain st) →
  Forall ensured (effectChain (nodeDragMove d cx cy st)).
Proof.
  intros Hall. unfold nodeDragMove.
  destruct (effectChain st !! dragIndex d) as [e|] eqn:Hk; [|done].
  simpl. apply Forall_insert; [done|]. apply set_position_ensured.
  by apply (Forall_lookup_1 _ _ _ _ Hall Hk).
Qed.

(** Once every entry has its id, position and [inputs] array, as after the
    first rendering, every handler of the editor leaves it so: connecting,
    removing, changing the effect, adding, reordering, dragging and the
    port clicks never produce an entry that lacks one of them. *)
Theorem chain_stays_complete pg st :
  Forall ensured (effectChain st) →
  (∀ f t p, Forall ensured (effectChain (connectNodes pg f t p st)))
  ∧ (∀ nodeId, Forall ensured (effectChain (removeEffectById pg nodeId st)))
  ∧ (∀ k n, Forall ensured (effectChain (retargetNode pg k n st))
            ∧ Forall ensured (effectChain (retargetNodeList pg k n st)))
  ∧ (∀ n pos, Forall ensured (effectChain (addEffect pg n pos st)))
  ∧ (∀ idx, (idx = 0 ∨ idx < length (effectChain st) →
             ∃ st', moveUp pg idx st = Some st'
                    ∧ Forall ensured (effectChain st'))
            ∧ Forall ensured (effectChain (moveDown pg idx st)))
  ∧ (∀ d cx cy, Forall ensured (effectChain (nodeDragMove d cx cy st)))
  ∧ (∀ k idx, Forall ensured (effectChain (portInClick pg k idx st))
              ∧ Forall ensured (effectChain (portOutClick pg k st))
              ∧ Forall ensured (effectChain (removeClick pg k st))).
Proof.
  intros Hall.
  split; [intros; by apply connectNodes_ensured|].
  split; [intros; by apply removeEffectById_ensured|].
  split; [intros; by apply retargetNode_ensured|].
  split; [intros; by apply addEffect_ensured|].
  split; [intros; by apply move_ensured|].
  split; [intros; by apply nodeDragMove_ensured|].
  intros k idx. split; [|split].
  - destruct (portInClick_chain pg k idx st) as [->|(e & _ & ->)]; [done|].
    by apply connectNodes_ensured.
  - by rewrite portOutClick_chain.
  - unfold removeClick. destruct (effectChain st !! k); [|done].
    by apply removeEffectById_ensured.
Qed.

Lemma chain_stays_complete_witness :
  Forall ensured
    (effectChain (addEffect samplePage "glitch" None
       (sampleEditor [sampleNode "s" "source" []]))).
Proof.
  destruct (chain_stays_complete samplePage
              (sampleEditor [sampleNode "s" "source" []]))
    as (_ & _ & _ & Hadd & _).
  - repeat constructor; simpl; eauto.
  - apply Hadd.
Defined.

(** ** Node ids *)

Lemma kept_ids l l' :
  Forall has_id l → Forall2 kept_node l l' → id <$> l' = id <$> l.
Proof.
  intros Hall H2. induction H2 as [|e e' r r' Hk _ IH]; [done|].
  inversion Hall as [|? ? He Hr]; subst.
  by rewrite !fmap_cons, (kept_node_id _ _ Hk He), IH.
Qed.

Lemma fmap_delete {A B} (f : A → B) (l : list A) i :
  f <$> delete i l = delete i (f <$> l).
Proof.
  revert i. induction l as [|x l IH]; intros [|i]; try done.
  cbn. f_equal. apply IH.
Qed.

Lemma NoDup_delete {A} (l : list A) i : NoDup l → NoDup (delete i l).
Proof.
  intros Hnd. eapply sublist_NoDup; [done|apply sublist_delete].
Qed.

Lemma purge_ids nodeId (l : list entry) :
  id <$> (purgeInputs nodeId <$> l) = id <$> l.
Proof. rewrite <-list_fmap_compose. by apply list_fmap_ext. Qed.

Lemma removeEffectById_ids pg nodeId st idx e0 :
  Forall has_id (effectChain st) →
  list_find (λ e, id e = nodeId) (effectChain st) = Some (idx, e0) →
  id <$> effectChain (removeEffectById pg nodeId st)
  = delete idx (id <$> effectChain st).
Proof.
  intros Hall Hfind.
  trans (id <$> (purgeInputs nodeId <$> delete idx (effectChain st))).
  - apply kept_ids; [|by apply removeEffectById_chain with e0].
    apply Forall_fmap. eapply Forall_impl; [by apply Forall_delete|].
    by intros e He.
  - by rewrite purge_ids, fmap_delete.
Qed.

(** Ids do not move. On a chain whose nodes all have an id, connecting and
    changing an effect leave the sequence of ids as it is, and removing
    takes out the id of the node found and no other; so ids that are
    pairwise different are still so after a removal. *)
Theorem node_ids_stable pg st :
  Forall has_id (effectChain st) →
  (∀ f t p, id <$> effectChain (connectNodes pg f t p st) = id <$> effectChain st)
  ∧ (∀ k n, id <$> effectChain (retargetNode pg k n st) = id <$> effectChain st
            ∧ id <$> effectChain (retargetNodeList pg k n st)
              = id <$> effectChain st)
  ∧ (∀ nodeId idx e0,
       list_find (λ e, id e = nodeId) (effectChain st) = Some (idx, e0) →
       id <$> effectChain (removeEffectById pg nodeId st)
       = delete idx (id <$> effectChain st))
  ∧ (NoDup (id <$> effectChain st) →
     ∀ nodeId, NoDup (id <$> effectChain (removeEffectById pg nodeId st))).
Proof.
  intros Hall. split; [|split; [|split]].
  - intros f t p. unfold connectNodes.
    destruct (negb (truthy f) || negb (truthy t) || bool_decide (f = t)); [done|].
    destruct (getEntryById t (effectChain st)) as [[k target]|] eqn:Hfind;
      [|done].
    case_decide; [done|].
    destruct (getEntryById_lookup _ _ _ _ Hfind) as [Hk Hid].
    set (l1 := <[k := _]> (effectChain st)).
    assert (id <$> l1 = id <$> effectChain st) as Hids.
    { unfold l1. rewrite list_fmap_insert. simpl.
      apply list_insert_id. by rewrite list_lookup_fmap, Hk. }
    rewrite <-Hids. apply kept_ids; [|apply (renderChain_kept pg (set_effectChain l1 st))].
    apply Forall_insert; [done|]. unfold has_id. simpl.
    by apply (Forall_lookup_1 _ _ _ _ Hall Hk).
  - intros k n. unfold retargetNode, retargetNodeList.
    destruct (effectChain st !! k) as [e|] eqn:Hk; [|done].
    set (l1 := <[k := retargetEntry n e]> (effectChain st)).
    assert (id <$> l1 = id <$> effectChain st) as Hids.
    { unfold l1. rewrite list_fmap_insert, retargetEntry_id.
      apply list_insert_id. by rewrite list_lookup_fmap, Hk. }
    assert (Forall has_id l1) as Hall1.
    { apply Forall_insert; [done|]. unfold has_id.
      rewrite retargetEntry_id. by apply (Forall_lookup_1 _ _ _ _ Hall Hk). }
    pose proof (renderChain_kept pg (set_effectChain l1 st)) as H1.
    split.
    + rewrite <-Hids. by apply kept_ids.
    + rewrite <-Hids. apply kept_ids; [done|].
      eapply Forall2_kept_trans; [exact H1|apply renderChainList_kept].
  - intros nodeId idx e0 Hfind. by apply removeEffectById_ids with e0.
  - intros Hnd nodeId.
    destruct (list_find (λ e, id e = nodeId) (effectChain st))
      as [[idx e0]|] eqn:Hfind.
    + rewrite (removeEffectById_ids pg nodeId st idx e0) by done.
      by apply NoDup_delete.
    + unfold removeEffectById. by rewrite Hfind.
Qed.

Lemma node_ids_stable_witness :
  id <$> effectChain (connectNodes samplePage (JStr "s") (JStr "m") 0
    (sampleEditor [sampleNode "s" "source" []; sampleNode "m" "mix" []]))
  = [JStr "s"; JStr "m"].
Proof.
  apply (node_ids_stable samplePage
           (sampleEditor [sampleNode "s" "source" []; sampleNode "m" "mix" []])).
  repeat constructor.
Defined.

(** ** References between nodes *)

Lemma elem_of_js_set (l : list jsval) i v x :
  x ∈ js_set l i v → x = v ∨ x = JUndefined ∨ x ∈ l.
Proof.
  unfold js_set. case_decide.
  - intros (j & Hj)%list_elem_of_lookup.
    destruct (decide (i = j)) as [->|Hne].
    + rewrite list_lookup_insert_eq in Hj by done. left. congruence.
    + rewrite list_lookup_insert_ne in Hj by done.
      right. right. by eapply list_elem_of_lookup_2.
  - rewrite !elem_of_app, list_elem_of_singleton.
    intros [Hx|[Hx|Hx]]; [by right; right| |by left].
    right. left. by apply elem_of_replicate in Hx as [? _].
Qed.

Lemma elem_of_padNull (l : list jsval) n x :
  x ∈ padNull l n → x = JNull ∨ x ∈ l.
Proof.
  unfold padNull. rewrite elem_of_app.
  intros [Hx|Hx]; [by right|]. left. by apply elem_of_replicate in Hx as [? _].
Qed.

(** What [connectNodes] puts into [inputs] is [fromId], null, or something
    that was there. *)
Lemma elem_of_connectInputs f p n target x :
  x ∈ connectInputs f p n target →
  x = f ∨ x = JNull ∨ x = JUndefined ∨ x ∈ inputs_or_empty target.
Proof.
  unfold connectInputs, dedupe.
  intros (i & Hi & _)%elem_of_take.
  rewrite list_lookup_imap in Hi.
  destruct (js_set _ _ _ !! i) as [y|] eqn:Hy; simpl in Hi; [|done].
  injection Hi as <-.
  case_decide; [by right; left|].
  apply list_elem_of_lookup_2 in Hy.
  apply elem_of_js_set in Hy as [->|[->|Hy]]; [by left|by right; right; left|].
  apply elem_of_padNull in Hy as [->|Hy]; [by right; left|].
  by right; right; right.
Qed.

Lemma elem_of_delete_ne {A} (l : list A) i j x :
  l !! j = Some x → j ≠ i → x ∈ delete i l.
Proof.
  intros Hj Hne. destruct (decide (j < i)).
  - apply (list_elem_of_lookup_2 _ j). by rewrite list_lookup_delete_lt.
  - destruct j as [|j]; [lia|].
    apply (list_elem_of_lookup_2 _ j). by rewrite list_lookup_delete_ge by lia.
Qed.

(** Writing at [k] an entry of the same id whose references were there, or
    are ids of the chain, keeps every reference resolved. *)
Lemma no_dangling_insert l k e e' :
  l !! k = Some e → id e' = id e →
  (∀ s, JStr s ∈ inputs_or_empty e' →
        JStr s ∈ inputs_or_empty e ∨ ∃ e2, e2 ∈ l ∧ id e2 = JStr s) →
  no_dangling l → no_dangling (<[k := e']> l).
Proof.
  intros Hk Hid Hin Hnd.
  assert (∀ s, (∃ e2, e2 ∈ l ∧ id e2 = JStr s) →
               ∃ e2, e2 ∈ <[k := e']> l ∧ id e2 = JStr s) as Hids.
  { intros s (e2 & (j & Hj)%list_elem_of_lookup & He2).
    destruct (decide (j = k)) as [->|Hne].
    - exists e'. split.
      + apply (list_elem_of_lookup_2 _ k), list_lookup_insert_eq.
        by eapply lookup_lt_Some.
      + rewrite Hid. congruence.
    - exists e2. split; [|done].
      apply (list_elem_of_lookup_2 _ j). by rewrite list_lookup_insert_ne. }
  intros x s (j & Hj)%list_elem_of_lookup Hs. apply Hids.
  destruct (decide (j = k)) as [->|Hne].
  - rewrite list_lookup_insert_eq in Hj by (by eapply lookup_lt_Some).
    injection Hj as <-. destruct (Hin s Hs) as [Hold|Hnew]; [|done].
    apply (Hnd e s); [by eapply list_elem_of_lookup_2|done].
  - rewrite list_lookup_insert_ne in Hj by done.
    apply (Hnd x s); [by eapply list_elem_of_lookup_2|done].
Qed.

Lemma no_dangling_perm l l' : l ≡ₚ l' → no_dangling l → no_dangling l'.
Proof.
  intros Hp Hnd e s He Hs.
  destruct (Hnd e s) as (e2 & He2 & Hid); [by rewrite Hp|done|].
  exists e2. by rewrite <-Hp.
Qed.

Lemma no_dangling_remove nodeId l idx e0 :
  list_find (λ e, id e = nodeId) l = Some (idx, e0) →
  no_dangling l → no_dangling (purgeInputs nodeId <$> delete idx l).
Proof.
  intros Hfind Hnd e' s He' Hs.
  apply list_find_Some in Hfind as (Hidx & Hid0 & _).
  apply list_elem_of_fmap in He' as (e1 & -> & He1).
  unfold purgeInputs, inputs_or_empty in Hs. simpl in Hs.
  apply list_elem_of_filter in Hs as [Hne Hs].
  destruct (Hnd e1 s) as (e2 & (j & Hj)%list_elem_of_lookup & Hid2);
    [by eapply list_elem_of_delete_inv|done|].
  exists (purgeInputs nodeId e2). split; [|done].
  apply list_elem_of_fmap_2, (elem_of_delete_ne _ _ j); [done|].
  intros ->. congruence.
Qed.

Lemma retargetEntry_inputs n e :
  inputs_or_empty (retargetEntry n e)
  = take (getMaxInputs (JStr n)) (inputs_or_empty e).
Proof.
  unfold retargetEntry. case_decide as Hlen; unfold inputs_or_empty in *;
    simpl in *; [done|].
  by rewrite take_ge by lia.
Qed.

Lemma no_dangling_app_new l e :
  inputs_or_empty e = [] → no_dangling l → no_dangling (l ++ [e]).
Proof.
  intros He Hnd x s Hx Hs.
  apply elem_of_app in Hx as [Hx|Hx%list_elem_of_singleton].
  - destruct (Hnd x s Hx Hs) as (e2 & He2 & Hid).
    exists e2. split; [|done]. apply elem_of_app. by left.
  - subst x. rewrite He in Hs. by apply not_elem_of_nil in Hs.
Qed.

(** A call of [connectNodes] is rejected, leaving the state as it is, or
    passes every guard. *)
Lemma connectNodes_cases pg f t p st :
  connectNodes pg f t p st = st
  ∨ (truthy f = true ∧ truthy t = true ∧ f ≠ t
     ∧ ∃ k target, getEntryById t (effectChain st) = Some (k, target)
                   ∧ getMaxInputs (name target) ≠ 0).
Proof.
  unfold connectNodes.
  destruct (truthy f) eqn:Hf; [|by left]. simpl.
  destruct (truthy t) eqn:Ht; [|by left]. simpl.
  destruct (decide (f = t)) as [Heq|Hne];
    [left; by rewrite bool_decide_eq_true_2|].
  rewrite bool_decide_eq_false_2 by done.
  destruct (getEntryById t (effectChain st)) as [[k target]|] eqn:Hfind;
    [|by left].
  case_decide as Hmax; [by left|].
  right. eauto 10.
Qed.

(** No operation of the editor creates a dangling reference by itself. On a
    complete chain in which every string in an [inputs] array is the id of a
    node, this is still so after a removal (of any id), after a change of an
    effect, after [addEffect], after a reordering, and after
    [connectNodes] from the id of a node of the chain. *)
Theorem references_stay_resolved pg st :
  Forall ensured (effectChain st) → no_dangling (effectChain st) →
  (∀ nodeId, no_dangling (effectChain (removeEffectById pg nodeId st)))
  ∧ (∀ k n, no_dangling (effectChain (retargetNode pg k n st))
            ∧ no_dangling (effectChain (retargetNodeList pg k n st)))
  ∧ (∀ n pos, no_dangling (effectChain (addEffect pg n pos st)))
  ∧ (∀ idx, (idx = 0 ∨ idx < length (effectChain st) →
             ∃ st', moveUp pg idx st = Some st'
                    ∧ no_dangling (effectChain st'))
            ∧ no_dangling (effectChain (moveDown pg idx st)))
  ∧ (∀ f t p, (∃ e, e ∈ effectChain st ∧ id e = f) →
              no_dangling (effectChain (connectNodes pg f t p st))).
Proof.
  intros Hall Hnd. split; [|split; [|split; [|split]]].
  - intros nodeId.
    destruct (list_find (λ e, id e = nodeId) (effectChain st))
      as [[idx e0]|] eqn:Hfind.
    + rewrite (removeEffectById_exact pg nodeId st idx e0) by done. simpl.
      by apply no_dangling_remove with e0.
    + unfold removeEffectById. by rewrite Hfind.
  - intros k n. destruct (effectChain st !! k) as [e|] eqn:Hk.
    + destruct (retargetNode_exact pg k n st e Hall Hk) as [-> ->]. simpl.
      assert (no_dangling (<[k := retargetEntry n e]> (effectChain st)));
        [|done].
      apply no_dangling_insert with e; try done; [apply retargetEntry_id|].
      intros s Hs. left. rewrite retargetEntry_inputs in Hs.
      apply elem_of_take in Hs as (i & Hi & _).
      by eapply list_elem_of_lookup_2.
    + unfold retargetNode, retargetNodeList. by rewrite Hk.
  - intros n pos.
    destruct (decide (n = "source-local"
      ∧ Exists (λ e, name e = JStr "source-local") (effectChain st)))
      as [[Hn Hex]|Hno].
    + rewrite addEffect_rejected by done. by rewrite showToast_chain.
    + destruct (chosenDefinition pg n) as [def|] eqn:Hdef.
      * rewrite (addEffect_exact pg n pos st def) by done. simpl.
        by apply no_dangling_app_new.
      * by rewrite addEffect_no_definition.
  - intros idx.
    assert (∀ i a b, effectChain st !! i = Some a →
              effectChain st !! S i = Some b →
              no_dangling (effectChain (moveDown pg i st))) as Hdown.
    { intros i a b Ha Hb.
      destruct (moveDown_exact pg i st a b Hall Ha Hb) as [-> _]. simpl.
      destruct (swap_neighbours _ _ _ _ Ha Hb) as [_ Hl].
      eapply no_dangling_perm; [|exact Hnd]. rewrite Hl at 1.
      apply Permutation_app_head, perm_swap. }
    assert (∀ i, no_dangling (effectChain (moveDown pg i st))) as Hdown'.
    { intros i. destruct (effectChain st !! i) as [a|] eqn:Ha.
      - destruct (effectChain st !! S i) as [b|] eqn:Hb.
        + by apply Hdown with a b.
        + apply lookup_ge_None in Hb. by rewrite moveDown_last by lia.
      - unfold moveDown. by rewrite Ha. }
    split; [|apply Hdown'].
    intros Hidx. eexists. split; [by apply moveUp_as_down|].
    destruct idx; [done|apply Hdown'].
  - intros f t p (ef & Hef & Hidf).
    destruct (connectNodes_cases pg f t p st)
      as [->|(Hf & _ & Hne & k & target & Hfind & Hmax)]; [done|].
    rewrite (connectNodes_exact pg f t p st k target) by done. simpl.
    destruct (getEntryById_lookup _ _ _ _ Hfind) as [Hk _].
    apply no_dangling_insert with target; try done.
    intros s Hs. unfold inputs_or_empty at 1 in Hs. simpl in Hs.
    apply elem_of_connectInputs in Hs as [Hs|[Hs|[Hs|Hs]]]; try done.
    + right. exists ef. split; [done|]. congruence.
    + by left.
Qed.

Lemma references_stay_resolved_witness :
  no_dangling
    (effectChain (removeEffectById samplePage (JStr "s")
       (sampleEditor [sampleNode "s" "source" [];
                      sampleNode "g" "glitch" [JStr "s"]]))).
Proof.
  destruct (references_stay_resolved samplePage
              (sampleEditor [sampleNode "s" "source" [];
                             sampleNode "g" "glitch" [JStr "s"]]))
    as (Hrem & _).
  - repeat constructor; simpl; eauto.
  - intros e s He Hs.
    apply elem_of_cons in He as [->|He].
    + by apply not_elem_of_nil in Hs.
    + apply list_elem_of_singleton in He as ->.
      apply list_elem_of_singleton in Hs. injection Hs as ->.
      exists (sampleNode "s" "source" []). split; [|done].
      apply list_elem_of_here.
  - apply Hrem.
Defined.

(** ** Removing a node *)

Lemma removeEffectById_absent pg nodeId st :
  (∀ e, e ∈ effectChain st → id e ≠ nodeId) →
  removeEffectById pg nodeId st = st.
Proof.
  intros Hnone. unfold removeEffectById.
  destruct (list_find (λ e, id e = nodeId) (effectChain st))
    as [[idx e0]|] eqn:Hfind; [|done].
  apply list_find_Some in Hfind as (Hk & Hid & _).
  destruct (Hnone e0); [by eapply list_elem_of_lookup_2|done].
Qed.

(** What [removeEffectById] does to the nodes themselves. With an id that
    no node has it changes nothing at all. On a complete chain, with the id
    of a node, it takes out one node, the first with that id, and leaves
    every other node in place and order with its id, name, options and
    position; the counter, the viewport, the selected output and the toast
    are as they were. *)
Theorem removeEffectById_removes_one pg nodeId st :
  ((∀ e, e ∈ effectChain st → id e ≠ nodeId) →
   removeEffectById pg nodeId st = st)
  ∧ (Forall ensured (effectChain st) →
     ∀ idx e0,
       list_find (λ e, id e = nodeId) (effectChain st) = Some (idx, e0) →
       let st' := removeEffectById pg nodeId st in
       S (length (effectChain st')) = length (effectChain st)
       ∧ (λ e, (id e, name e, options e, position e)) <$> effectChain st'
         = (λ e, (id e, name e, options e, position e))
             <$> delete idx (effectChain st)
       ∧ (∀ j e, effectChain st !! j = Some e → j < idx → id e ≠ nodeId)
       ∧ nodeIdCounter st' = nodeIdCounter st
       ∧ viewportState st' = viewportState st
       ∧ selectedOutput st' = selectedOutput st
       ∧ toast st' = toast st).
Proof.
  split; [apply removeEffectById_absent|].
  intros Hall idx e0 Hfind. cbv zeta.
  rewrite (removeEffectById_exact pg nodeId st idx e0) by done. simpl.
  pose proof (proj1 (list_find_Some _ _ _ _) Hfind) as (Hk & _ & Hbefore).
  split; [|split; [|split]].
  - rewrite length_fmap, length_delete by eauto.
    apply lookup_lt_Some in Hk. lia.
  - rewrite <-list_fmap_compose. by apply list_fmap_ext.
  - done.
  - done.
Qed.

Lemma removeEffectById_removes_one_witness :
  removeEffectById samplePage (JStr "x")
    (sampleEditor [sampleNode "a" "source" []; sampleNode "b" "glitch" [JStr "a"]])
  = sampleEditor [sampleNode "a" "source" []; sampleNode "b" "glitch" [JStr "a"]].
Proof.
  apply (removeEffectById_removes_one samplePage (JStr "x")
    (sampleEditor [sampleNode "a" "source" []; sampleNode "b" "glitch" [JStr "a"]])).
  intros e He.
  apply elem_of_cons in He as [->|He]; [discriminate|].
  apply list_elem_of_singleton in He as ->. discriminate.
Defined.

Lemma NoDup_lookup_delete {A} (l : list A) i x :
  NoDup l → l !! i = Some x → x ∉ delete i l.
Proof.
  intros Hnd Hi (j & Hj)%list_elem_of_lookup.
  destruct (decide (j < i)).
  - rewrite list_lookup_delete_lt in Hj by done.
    pose proof (NoDup_lookup _ _ _ _ Hnd Hi Hj). lia.
  - rewrite list_lookup_delete_ge in Hj by lia.
    pose proof (NoDup_lookup _ _ _ _ Hnd Hi Hj). lia.
Qed.

Lemma getEntryById_unique (l : list entry) k e :
  NoDup (id <$> l) → l !! k = Some e → getEntryById (id e) l = Some (k, e).
Proof.
  intros Hnd Hk. unfold getEntryById. apply list_find_Some.
  split; [done|]. split; [done|].
  intros j y Hj Hlt Heq.
  assert ((id <$> l) !! j = Some (id e)) as Hj'.
  { by rewrite list_lookup_fmap, Hj, <-Heq. }
  assert ((id <$> l) !! k = Some (id e)) as Hk'.
  { by rewrite list_lookup_fmap, Hk. }
  pose proof (NoDup_lookup _ _ _ _ Hnd Hj' Hk'). lia.
Qed.

(** A selected output outlives its node. [removeEffectById] does not touch
    [selectedOutput]: when the output of a node is selected and the node is
    removed (ids pairwise different, chain complete), the id is still
    selected although no node has it, and the next click on a port [p] of a
    node stores it there, a reference to a node that is gone. *)
Theorem removed_source_still_connects pg st a k e p :
  Forall ensured (effectChain st) → NoDup (id <$> effectChain st) →
  (∃ ea, ea ∈ effectChain st ∧ id ea = a) →
  selectedOutput st = a →
  effectChain (removeEffectById pg a st) !! k = Some e →
  p < getMaxInputs (name e) →
  let st1 := removeEffectById pg a st in
  let st2 := portInClick pg k p st1 in
  selectedOutput st1 = a
  ∧ (∀ e', e' ∈ effectChain st1 → id e' ≠ a)
  ∧ (∃ e2, effectChain st2 !! k = Some e2
           ∧ id e2 = id e ∧ js_get (inputs_or_empty e2) p = a)
  ∧ (∀ e', e' ∈ effectChain st2 → id e' ≠ a)
  ∧ ¬ no_dangling (effectChain st2).
Proof.
  intros Hall Hnd (ea & Hea & Hida) Hsel He Hp. cbv zeta.
  assert (truthy a = true) as Ha.
  { rewrite <-Hida. rewrite Forall_forall in Hall. by apply Hall. }
  destruct (list_find (λ e, id e = a) (effectChain st)) as [[idx e0]|] eqn:Hfind;
    [|apply list_find_None in Hfind; rewrite Forall_forall in Hfind;
      by destruct (Hfind ea Hea)].
  pose proof (proj1 (list_find_Some _ _ _ _) Hfind) as (Hidx & Hid0 & _).
  pose proof (removeEffectById_ensured pg a st Hall) as Hall1.
  pose proof (removeEffectById_ids pg a st idx e0
                (Forall_ensured_has_id _ Hall) Hfind) as Hids1.
  set (st1 := removeEffectById pg a st) in *.
  assert (selectedOutput st1 = a) as Hsel1.
  { unfold st1. by rewrite (removeEffectById_exact pg a st idx e0). }
  assert (a ∉ id <$> effectChain st1) as Hgone.
  { rewrite Hids1. apply NoDup_lookup_delete; [done|].
    by rewrite list_lookup_fmap, Hidx, <-Hid0. }
  assert (∀ e', e' ∈ effectChain st1 → id e' ≠ a) as Hgone1.
  { intros e' He' Heq. apply Hgone. rewrite <-Heq.
    by apply list_elem_of_fmap_2. }
  assert (NoDup (id <$> effectChain st1)) as Hnd1.
  { rewrite Hids1. by apply NoDup_delete. }
  assert (a ≠ id e) as Hne.
  { intros Heq. apply (Hgone1 e); [by eapply list_elem_of_lookup_2|done]. }
  assert (portInClick pg k p st1
          = clearSelectedOutput
              (set_effectChain
                 (<[k := set_inputs
                           (connectInputs a p (getMaxInputs (name e)) e) e]>
                    (effectChain st1)) st1)) as Hclick.
  { unfold portInClick. rewrite He, Hsel1, Ha. simpl. f_equal.
    apply connectNodes_exact; try done; [|lia].
    by apply getEntryById_unique. }
  rewrite Hclick. simpl.
  set (e2 := set_inputs (connectInputs a p (getMaxInputs (name e)) e) e).
  assert (<[k := e2]> (effectChain st1) !! k = Some e2) as Hk2.
  { apply list_lookup_insert_eq. by eapply lookup_lt_Some. }
  assert (js_get (inputs_or_empty e2) p = a) as Hslot.
  { unfold e2, inputs_or_empty. simpl.
    by apply (connectInputs_only_at a p (getMaxInputs (name e)) e Ha Hp p). }
  assert (∀ e', e' ∈ <[k := e2]> (effectChain st1) → id e' ≠ a) as Hgone2.
  { intros e' (j & Hj)%list_elem_of_lookup.
    destruct (decide (j = k)) as [->|Hjk].
    - rewrite Hk2 in Hj. injection Hj as <-. simpl. congruence.
    - rewrite list_lookup_insert_ne in Hj by done.
      apply Hgone1. by eapply list_elem_of_lookup_2. }
  split; [done|]. split; [done|]. split; [by exists e2|]. split; [done|].
  intros Hres. destruct a as [| |s]; try done.
  destruct (Hres e2 s) as (e' & He' & Hid').
  - by eapply list_elem_of_lookup_2.
  - rewrite <-Hslot. unfold js_get.
    destruct (inputs_or_empty e2 !! p) as [v|] eqn:Hv.
    + by eapply list_elem_of_lookup_2.
    + unfold js_get in Hslot. by rewrite Hv in Hslot.
  - by apply (Hgone2 e').
Qed.

Lemma removed_source_still_connects_witness :
  ¬ no_dangling
      (effectChain
         (portInClick samplePage 0 0
            (removeEffectById samplePage (JStr "s")
               (set_selectedOutput (JStr "s")
                  (sampleEditor [sampleNode "s" "source" [];
                                 sampleNode "g" "glitch" []]))))).
Proof.
  apply (removed_source_still_connects samplePage
           (set_selectedOutput (JStr "s")
              (sampleEditor [sampleNode "s" "source" [];
                             sampleNode "g" "glitch" []]))
           (JStr "s") 0 (sampleNode "g" "glitch" []) 0).
  - repeat constructor; simpl; eauto.
  - simpl. apply NoDup_cons. split; [|apply NoDup_singleton].
    intros Hin. apply list_elem_of_singleton in Hin. discriminate.
  - exists (sampleNode "s" "source" []). split; [apply list_elem_of_here|done].
  - reflexivity.
  - reflexivity.
  - vm_compute. lia.
Defined.

(** ** Connecting *)

Lemma padNull_full (l : list jsval) n : length l = n → padNull l n = l.
Proof.
  intros <-. unfold padNull. by rewrite Nat.sub_diag, app_nil_r.
Qed.

(** Connecting again what is connected builds the same array. *)
Lemma connectInputs_fixed f p n target :
  connectInputs f p n
    (set_inputs (connectInputs f p n target) target)
  = connectInputs f p n target.
Proof.
  set (L := connectInputs f p n target).
  assert (length L = n) as HL by apply length_connectInputs.
  apply list_eq; intros i.
  destruct (decide (i < n)) as [Hi|Hi];
    [|by rewrite !lookup_ge_None_2 by (rewrite ?length_connectInputs; lia)].
  destruct (decide (p < n)) as [Hp|Hp].
  - rewrite lookup_connectInputs_valid by done. simpl.
    rewrite padNull_full by done.
    unfold L at 2. rewrite lookup_connectInputs_valid by done.
    destruct (decide (i = p)) as [->|Hne]; [done|].
    unfold L. rewrite lookup_connectInputs_valid, decide_False by done.
    destruct (padNull _ _ !! i) as [v|]; [|done]. simpl. f_equal.
    destruct (decide (v = f)) as [->|Hv].
    + by destruct (decide (JNull = f)).
    + by rewrite decide_False.
  - rewrite connectInputs_invalid by lia. simpl.
    rewrite padNull_full by done.
    rewrite lookup_take_lt, list_lookup_fmap by done.
    unfold L. rewrite connectInputs_invalid by lia.
    rewrite lookup_take_lt, list_lookup_fmap by done.
    destruct (padNull _ _ !! i) as [v|]; [|done]. simpl. f_equal.
    destruct (decide (v = f)) as [->|Hv].
    + by destruct (decide (JNull = f)).
    + by rewrite decide_False.
Qed.

(** [connectNodes] is idempotent on a complete chain: the second of two
    equal calls changes nothing. *)
Theorem connectNodes_idempotent pg f t p st :
  Forall ensured (effectChain st) →
  connectNodes pg f t p (connectNodes pg f t p st) = connectNodes pg f t p st.
Proof.
  intros Hall.
  destruct (connectNodes_cases pg f t p st)
    as [Hrej|(Hf & _ & Hne & k & target & Hfind & Hmax)];
    [by rewrite !Hrej|].
  rewrite (connectNodes_exact pg f t p st k target) by done.
  destruct (getEntryById_lookup _ _ _ _ Hfind) as [Hk Hid].
  set (n := getMaxInputs (name target)) in *.
  set (t1 := set_inputs (connectInputs f p n target) target).
  set (st1 := set_effectChain (<[k := t1]> (effectChain st)) st).
  assert (Forall ensured (effectChain st1)) as Hall1.
  { apply Forall_insert; [done|]. apply set_inputs_ensured.
    by apply (Forall_lookup_1 _ _ _ _ Hall Hk). }
  rewrite (connectNodes_exact pg f t p st1 k t1); try done.
  - change (getMaxInputs (name t1)) with n.
    assert (set_inputs (connectInputs f p n t1) t1 = t1) as ->.
    { unfold t1 at 1. rewrite connectInputs_fixed. done. }
    unfold st1. simpl. rewrite list_insert_insert_eq.
    by destruct st.
  - by apply (getEntryById_insert t _ k target).
Qed.

Lemma connectNodes_idempotent_witness :
  connectNodes samplePage (JStr "s") (JStr "m") 1
    (connectNodes samplePage (JStr "s") (JStr "m") 1
       (sampleEditor [sampleNode "s" "source" []; sampleNode "m" "mix" []]))
  = connectNodes samplePage (JStr "s") (JStr "m") 1
      (sampleEditor [sampleNode "s" "source" []; sampleNode "m" "mix" []]).
Proof.
  apply connectNodes_idempotent. repeat constructor; simpl; eauto.
Defined.

(** A call of [connectNodes] for a port of the target, on a complete chain,
    writes that port and nothing else it need not: the target keeps its id,
    name, options and position and gets exactly max-input-count slots, with
    [fromId] at [p]; every other slot keeps the value it had unless that was
    [fromId], and holds null when it had none; every other node, the
    counter, the viewport, the selected output and the toast are as they
    were. *)
Theorem connectNodes_frame pg f t p st k target :
  Forall ensured (effectChain st) →
  truthy f = true → f ≠ t →
  getEntryById t (effectChain st) = Some (k, target) →
  p < getMaxInputs (name target) →
  let st' := connectNodes pg f t p st in
  ∃ target' l,
    effectChain st' !! k = Some target'
    ∧ (id target', name target', options target', position target')
      = (id target, name target, options target, position target)
    ∧ inputs target' = Some l
    ∧ length l = getMaxInputs (name target)
    ∧ l !! p = Some f
    ∧ (∀ i v, i ≠ p → i < getMaxInputs (name target) →
         inputs_or_empty target !! i = Some v → v ≠ f → l !! i = Some v)
    ∧ (∀ i, i ≠ p → i < getMaxInputs (name target) →
         inputs_or_empty target !! i = None → l !! i = Some JNull)
    ∧ (∀ j, j ≠ k → effectChain st' !! j = effectChain st !! j)
    ∧ length (effectChain st') = length (effectChain st)
    ∧ (nodeIdCounter st', viewportState st', selectedOutput st', toast st')
      = (nodeIdCounter st, viewportState st, selectedOutput st, toast st).
Proof.
  intros Hall Hf Hne Hfind Hp. cbv zeta.
  rewrite (connectNodes_exact pg f t p st k target) by (done || lia).
  destruct (getEntryById_lookup _ _ _ _ Hfind) as [Hk Hid].
  set (n := getMaxInputs (name target)) in *.
  exists (set_inputs (connectInputs f p n target) target),
         (connectInputs f p n target).
  simpl. split; [apply list_lookup_insert_eq; by eapply lookup_lt_Some|].
  split; [done|]. split; [done|].
  split; [apply length_connectInputs|].
  split; [by rewrite lookup_connectInputs_valid, decide_True by done|].
  split; [|split; [|split; [|split]]].
  - intros i v Hi Hin Hv Hvf.
    rewrite lookup_connectInputs_valid, decide_False by done.
    unfold padNull. unfold inputs_or_empty in Hv.
    rewrite (lookup_app_l_Some _ _ _ _ Hv). simpl.
    by rewrite decide_False.
  - intros i Hi Hin Hv.
    rewrite lookup_connectInputs_valid, decide_False by done.
    unfold padNull. unfold inputs_or_empty in Hv.
    apply lookup_ge_None in Hv.
    rewrite lookup_app_r by done.
    rewrite lookup_replicate_2 by lia. simpl.
    by destruct (decide (JNull = f)).
  - intros j Hj. by rewrite list_lookup_insert_ne.
  - by rewrite length_insert.
  - done.
Qed.

Lemma connectNodes_frame_witness :
  ∃ target' l,
    effectChain (connectNodes samplePage (JStr "s") (JStr "m") 1
      (sampleEditor [sampleNode "s" "source" []; sampleNode "x" "noise" [];
                     sampleNode "m" "mix" [JStr "x"]])) !! 2 = Some target'
    ∧ inputs target' = Some l
    ∧ l = [JStr "x"; JStr "s"].
Proof.
  destruct (connectNodes_frame samplePage (JStr "s") (JStr "m") 1
              (sampleEditor [sampleNode "s" "source" []; sampleNode "x" "noise" [];
                             sampleNode "m" "mix" [JStr "x"]])
              2 (sampleNode "m" "mix" [JStr "x"]))
    as (target' & l & Hk & _ & Hin & Hlen & Hp & Hkeep & _).
  - repeat constructor; simpl; eauto.
  - reflexivity.
  - discriminate.
  - reflexivity.
  - vm_compute. lia.
  - exists target', l. split; [exact Hk|]. split; [exact Hin|].
    pose proof (Hkeep 0 (JStr "x") ltac:(lia) ltac:(vm_compute; lia)
                  eq_refl ltac:(discriminate)) as H0.
    change (getMaxInputs (name (sampleNode "m" "mix" [JStr "x"]))) with 2 in Hlen.
    destruct l as [|a [|b [|c l]]]; try discriminate Hlen.
    simpl in H0, Hp. congruence.
Defined.

(** ** Changing the effect of a node *)

Lemma retargetEntry_fields n e :
  name (retargetEntry n e) = JStr n
  ∧ options (retargetEntry n e) = Some ∅
  ∧ position (retargetEntry n e) = position e
  ∧ inputs (retargetEntry n e)
    = Some (take (getMaxInputs (JStr n)) (inputs_or_empty e)).
Proof.
  unfold retargetEntry. case_decide as Hlen; unfold inputs_or_empty in *;
    simpl in *; repeat split; try done.
  by rewrite take_ge by lia.
Qed.

(** The change handler of the effect select, in either view, on a complete
    chain: the node gets the new name and empty options, keeps its id and
    position, and keeps of its inputs the first max-input-count ones of the
    new effect, none for a source, source-local or noise; every other node
    and the rest of the state are as they were. *)
Theorem retargetNode_changes pg k n st e :
  Forall ensured (effectChain st) →
  effectChain st !! k = Some e →
  let st' := retargetNode pg k n st in
  retargetNodeList pg k n st = st'
  ∧ (∃ e', effectChain st' !! k = Some e'
           ∧ name e' = JStr n ∧ options e' = Some ∅
           ∧ id e' = id e ∧ position e' = position e
           ∧ inputs e' = Some (take (getMaxInputs (JStr n)) (inputs_or_empty e))
           ∧ (n = "source" ∨ n = "source-local" ∨ n = "noise" →
              inputs e' = Some []))
  ∧ (∀ j, j ≠ k → effectChain st' !! j = effectChain st !! j)
  ∧ length (effectChain st') = length (effectChain st)
  ∧ (nodeIdCounter st', viewportState st', selectedOutput st', toast st')
    = (nodeIdCounter st, viewportState st, selectedOutput st, toast st).
Proof.
  intros Hall Hk. cbv zeta.
  destruct (retargetNode_exact pg k n st e Hall Hk) as [-> ->].
  destruct (retargetEntry_fields n e) as (Hn & Ho & Hp & Hi).
  split; [done|]. simpl. split; [|split; [|split]].
  - exists (retargetEntry n e).
    split; [apply list_lookup_insert_eq; by eapply lookup_lt_Some|].
    repeat (split; [done || apply retargetEntry_id|]).
    intros Hsrc. rewrite Hi.
    by destruct Hsrc as [-> | [-> | ->]].
  - intros j Hj. by rewrite list_lookup_insert_ne.
  - by rewrite length_insert.
  - done.
Qed.

Lemma retargetNode_changes_witness :
  ∃ e', effectChain (retargetNode samplePage 1 "glitch"
          (sampleEditor [sampleNode "s" "source" [];
                         sampleNode "m" "mix" [JStr "s"; JStr "t"]])) !! 1
        = Some e'
        ∧ name e' = JStr "glitch"
        ∧ inputs e' = Some [JStr "s"].
Proof.
  destruct (retargetNode_changes samplePage 1 "glitch"
              (sampleEditor [sampleNode "s" "source" [];
                             sampleNode "m" "mix" [JStr "s"; JStr "t"]])
              (sampleNode "m" "mix" [JStr "s"; JStr "t"]))
    as (_ & (e' & Hk & Hn & _ & _ & _ & Hi & _) & _).
  - repeat constructor; simpl; eauto.
  - reflexivity.
  - exists e'. split; [exact Hk|]. split; [exact Hn|exact Hi].
Defined.

(** ** Adding a node *)

Lemma chosenDefinition_name pg n def :
  chosenDefinition pg n = Some def →
  def_name def
  = if bool_decide (Exists (λ d, def_name d = n) (availableEffects pg))
    then n else from_option def_name n (head (availableEffects pg)).
Proof.
  unfold chosenDefinition, getEffectDefinition.
  destruct (list_find (λ d, def_name d = n) (availableEffects pg))
    as [[i d]|] eqn:Hfind; simpl.
  - intros [= <-]. apply list_find_Some in Hfind as (Hi & Hd & _).
    rewrite bool_decide_eq_true_2; [done|].
    apply Exists_exists. exists d. split; [|done].
    by eapply list_elem_of_lookup_2.
  - intros Hhead. apply list_find_None in Hfind.
    rewrite bool_decide_eq_false_2; [by rewrite Hhead|].
    intros (d & Hin & Hd)%Exists_exists.
    by eapply Forall_forall in Hfind.
Qed.

(** [addEffect], when it does not refuse a second local source, on a
    complete chain. With an empty catalogue it does nothing. Otherwise it
    appends exactly one node and touches no other: the new node has the id
    of [makeNodeId], the effect asked for when the catalogue has it and the
    first effect of the catalogue when it has not, empty options, no
    inputs, and the position given or else the centre of the viewport. *)
Theorem addEffect_appends pg n pos st :
  Forall ensured (effectChain st) →
  ¬ (n = "source-local"
     ∧ Exists (λ e, name e = JStr "source-local") (effectChain st)) →
  (availableEffects pg = [] → addEffect pg n pos st = st)
  ∧ (availableEffects pg ≠ [] →
     ∃ new,
       effectChain (addEffect pg n pos st) = effectChain st ++ [new]
       ∧ id new = JStr (nodeIdString pg (S (nodeIdCounter st)))
       ∧ name new
         = JStr (if bool_decide (Exists (λ d, def_name d = n) (availableEffects pg))
                 then n else from_option def_name n (head (availableEffects pg)))
       ∧ options new = Some ∅
       ∧ inputs new = Some []
       ∧ position new = Some (default (getViewportCenterPosition pg st) pos)
       ∧ nodeIdCounter (addEffect pg n pos st) = S (nodeIdCounter st)
       ∧ (viewportState (addEffect pg n pos st),
          selectedOutput (addEffect pg n pos st), toast (addEffect pg n pos st))
         = (viewportState st, selectedOutput st, toast st)).
Proof.
  intros Hall Hno. split.
  - intros Hempty. apply addEffect_no_definition; [done|].
    unfold chosenDefinition, getEffectDefinition. by rewrite Hempty.
  - intros Hcat.
    destruct (chosenDefinition pg n) as [def|] eqn:Hdef.
    + rewrite (addEffect_exact pg n pos st def) by done. simpl.
      exists (addedEntry pg def pos st). split; [done|]. split; [done|].
      split; [simpl; by rewrite (chosenDefinition_name pg n def)|].
      done.
    + exfalso. unfold chosenDefinition in Hdef.
      destruct (getEffectDefinition pg n); [done|]. simpl in Hdef.
      by destruct (availableEffects pg).
Qed.

Lemma addEffect_appends_witness :
  ∃ new,
    effectChain (addEffect (Page true true true true None true false
                              [SOURCE_YOUTUBE; EffectDef "glitch" ""] (λ _, 7%N))
                   "wobble" None (sampleEditor [sampleNode "s" "source" []]))
    = [sampleNode "s" "source" []; new]
    ∧ name new = JStr "source".
Proof.
  destruct (addEffect_appends
              (Page true true true true None true false
                 [SOURCE_YOUTUBE; EffectDef "glitch" ""] (λ _, 7%N))
              "wobble" None (sampleEditor [sampleNode "s" "source" []]))
    as [_ Happ].
  - repeat constructor; simpl; eauto.
  - intros [Hn _]. discriminate Hn.
  - destruct Happ as (new & Hchain & _ & Hname & _); [discriminate|].
    exists new. split; [exact Hchain|exact Hname].
Defined.

Lemma one_local_source_app (l : list entry) e :
  one_local_source (l ++ [e]) ↔
  length (filter (λ e, name e = JStr "source-local") l)
  + (if decide (name e = JStr "source-local") then 1 else 0) ≤ 1.
Proof.
  unfold one_local_source. rewrite filter_app, length_app.
  destruct (decide (name e = JStr "source-local")) as [He|He].
  - by rewrite filter_cons_True by done.
  - by rewrite filter_cons_False by done.
Qed.

(** [addEffect] keeps the local source single: on a complete chain with at
    most one source-local node there is still at most one after
    [addEffect], for any name, provided the first effect of the catalogue,
    which stands in for unknown names, is not source-local. *)
Theorem addEffect_one_local_source pg n pos st :
  Forall ensured (effectChain st) →
  one_local_source (effectChain st) →
  (∀ d, head (availableEffects pg) = Some d → def_name d ≠ "source-local") →
  one_local_source (effectChain (addEffect pg n pos st)).
Proof.
  intros Hall Hone Hhead.
  destruct (decide (n = "source-local"
    ∧ Exists (λ e, name e = JStr "source-local") (effectChain st)))
    as [[Hn Hex]|Hno].
  { rewrite addEffect_rejected by done. by rewrite showToast_chain. }
  destruct (chosenDefinition pg n) as [def|] eqn:Hdef;
    [|by rewrite addEffect_no_definition].
  rewrite (addEffect_exact pg n pos st def) by done. simpl.
  apply one_local_source_app. simpl.
  destruct (decide (JStr (def_name def) = JStr "source-local")) as [Hloc|Hloc];
    [|unfold one_local_source in Hone; lia].
  injection Hloc as Hloc.
  assert (n = "source-local") as ->.
  { unfold chosenDefinition, getEffectDefinition in Hdef.
    destruct (list_find (λ d, def_name d = n) (availableEffects pg))
      as [[i d]|] eqn:Hfind; simpl in Hdef.
    - injection Hdef as ->.
      apply list_find_Some in Hfind as (_ & <- & _). done.
    - by destruct (Hhead def). }
  assert (filter (λ e, name e = JStr "source-local") (effectChain st) = [])
    as ->; [|simpl; lia].
  destruct (filter _ (effectChain st)) as [|e l] eqn:Hf; [done|].
  exfalso. apply Hno. split; [done|].
  assert (e ∈ filter (λ e, name e = JStr "source-local") (effectChain st))
    as [He Hin]%list_elem_of_filter by (rewrite Hf; left).
  apply Exists_exists. by exists e.
Qed.

Lemma addEffect_one_local_source_witness :
  one_local_source
    (effectChain (addEffect (Page true true true true None true false
                               [SOURCE_YOUTUBE; SOURCE_LOCAL] (λ _, 7%N))
                    "source-local" None
                    (sampleEditor [sampleNode "l" "source-local" []]))).
Proof.
  apply addEffect_one_local_source.
  - repeat constructor; simpl; eauto.
  - unfold one_local_source. simpl. lia.
  - intros d [= <-]. discriminate.
Defined.

(** ** Clicks on the ports *)

Lemma showToast_selectedOutput pg m b st :
  selectedOutput (showToast pg m b st) = selectedOutput st.
Proof. unfold showToast. by destruct (toastEl pg). Qed.

Lemma portOutClick_selectedOutput pg k st e :
  effectChain st !! k = Some e →
  selectedOutput (portOutClick pg k st) = id e.
Proof.
  intros Hk. unfold portOutClick. rewrite Hk.
  by rewrite showToast_selectedOutput.
Qed.

(** A click on an input port always leaves the editor with no output
    selected. With none selected before, it changes nothing but the toast,
    which then shows an error; with the output of the same node selected,
    it leaves the chain as it is. *)
Theorem portInClick_selection pg k p st e :
  effectChain st !! k = Some e →
  let st' := portInClick pg k p st in
  truthy (selectedOutput st') = false
  ∧ (truthy (selectedOutput st) = false →
     effectChain st' = effectChain st
     ∧ selectedOutput st' = selectedOutput st
     ∧ (toastEl pg = true →
        toast st' = Some ("Sélectionnez d'abord une sortie", true)))
  ∧ (selectedOutput st = id e → effectChain st' = effectChain st).
Proof.
  intros Hk. cbv zeta. unfold portInClick. rewrite Hk.
  destruct (truthy (selectedOutput st)) eqn:Hsel; simpl.
  - split; [done|]. split; [done|].
    intros ->. unfold connectNodes.
    rewrite (bool_decide_eq_true_2 (id e = id e)) by done.
    by rewrite orb_true_r.
  - rewrite showToast_selectedOutput, showToast_chain.
    split; [done|]. split; [|done].
    intros _. split; [done|]. split; [done|].
    unfold showToast. by intros ->.
Qed.

Lemma portInClick_selection_witness :
  truthy (selectedOutput
            (portInClick samplePage 0 0
               (set_selectedOutput (JStr "s")
                  (sampleEditor [sampleNode "g" "glitch" []]))))
  = false.
Proof.
  exact (proj1 (portInClick_selection samplePage 0 0
                  (set_selectedOutput (JStr "s")
                     (sampleEditor [sampleNode "g" "glitch" []]))
                  (sampleNode "g" "glitch" []) eq_refl)).
Defined.

(** Connecting by two clicks. On a complete chain with distinct ids, a
    click on the output port of one node followed by a click on the input
    port [p] of another, [p] below its maximum, puts the id of the first
    node in slot [p] of the inputs of the second and in no other slot,
    leaves every other node as it was, and ends with no output selected. *)
Theorem port_clicks_connect pg st ka kb ea eb p :
  Forall ensured (effectChain st) →
  NoDup (id <$> effectChain st) →
  effectChain st !! ka = Some ea →
  effectChain st !! kb = Some eb →
  ka ≠ kb →
  p < getMaxInputs (name eb) →
  let st1 := portOutClick pg ka st in
  let st2 := portInClick pg kb p st1 in
  selectedOutput st1 = id ea
  ∧ effectChain st1 = effectChain st
  ∧ selectedOutput st2 = JNull
  ∧ (∃ eb', effectChain st2 !! kb = Some eb'
            ∧ only_at (id ea) p (inputs_or_empty eb')
            ∧ length (inputs_or_empty eb') = getMaxInputs (name eb)
            ∧ (id eb', name eb', options eb', position eb')
              = (id eb, name eb, options eb, position eb))
  ∧ (∀ j, j ≠ kb → effectChain st2 !! j = effectChain st !! j).
Proof.
  intros Hall Hnd Hka Hkb Hne Hp. cbv zeta.
  pose proof (portOutClick_selectedOutput pg ka st ea Hka) as Hsel.
  pose proof (portOutClick_chain pg ka st) as Hchain.
  split; [done|]. split; [done|].
  assert (truthy (id ea) = true) as Hta.
  { by destruct (Forall_lookup_1 _ _ _ _ Hall Hka). }
  assert (id ea ≠ id eb) as Hids.
  { intros Heq. apply Hne.
    apply (NoDup_lookup (id <$> effectChain st) ka kb (id ea)); [done| |].
    - by rewrite list_lookup_fmap, Hka.
    - by rewrite list_lookup_fmap, Hkb, Heq. }
  unfold portInClick. rewrite Hchain, Hkb, Hsel, Hta. simpl.
  rewrite (connectNodes_exact pg (id ea) (id eb) p _ kb eb); try done.
  - rewrite Hchain. simpl. split; [done|]. split.
    + eexists. split; [apply list_lookup_insert_eq; by eapply lookup_lt_Some|].
      unfold inputs_or_empty. simpl.
      split; [by apply connectInputs_only_at|].
      split; [apply length_connectInputs|done].
    + intros j Hj. by rewrite list_lookup_insert_ne.
  - by rewrite Hchain.
  - rewrite Hchain. by apply getEntryById_unique.
  - lia.
Qed.

Lemma port_clicks_connect_witness :
  ∃ eb', effectChain
           (portInClick samplePage 1 1
              (portOutClick samplePage 0
                 (sampleEditor [sampleNode "s" "source" [];
                                sampleNode "m" "mix" []]))) !! 1
         = Some eb'
         ∧ only_at (JStr "s") 1 (inputs_or_empty eb').
Proof.
  destruct (port_clicks_connect samplePage
              (sampleEditor [sampleNode "s" "source" []; sampleNode "m" "mix" []])
              0 1 (sampleNode "s" "source" []) (sampleNode "m" "mix" []) 1)
    as (_ & _ & _ & (eb' & Hk & Honly & _) & _).
  - repeat constructor; simpl; eauto.
  - simpl. apply NoDup_cons. split; [|apply NoDup_singleton].
    intros Hin. apply list_elem_of_singleton in Hin. discriminate.
  - reflexivity.
  - reflexivity.
  - lia.
  - vm_compute. lia.
  - exists eb'. split; [exact Hk|exact Honly].
Defined.

(** ** Moving the view and the nodes *)

Section moving.

Local Open Scope Q_scope.

Lemma panningInstalled_stage pg :
  panningInstalled pg = true → ∃ r, nodeStage pg = Some r.
Proof.
  unfold panningInstalled. intros H.
  apply andb_true_iff in H as [H _]. apply andb_true_iff in H as [H _].
  apply bool_decide_eq_true in H as [r Hr]. by exists r.
Qed.

(** Panning, where [setupPanning] installs it. After the left button goes
    down on the stage outside a card with the pointer at [(cx, cy)], a move
    of the pointer to [(cx', cy')] keeps the scale and shifts the view so
    that the world point that was under the pointer is under it still. Once
    the button is up, moving the pointer leaves the view alone, and a press
    on a card never starts a pan. *)
Theorem pan_keeps_grab pg cx cy cx' cy' vs ps :
  panningInstalled pg = true →
  let ps1 := panPointerDown pg 0 false cx cy vs ps in
  let vs' := panPointerMove pg cx' cy' vs ps1 in
  scale vs' = scale vs
  ∧ px (clientToWorld pg vs' cx' cy') == px (clientToWorld pg vs cx cy)
  ∧ py (clientToWorld pg vs' cx' cy') == py (clientToWorld pg vs cx cy)
  ∧ panPointerMove pg cx' cy' vs' (panPointerUp pg ps1) = vs'
  ∧ panPointerDown pg 0 true cx cy vs ps = ps.
Proof.
  intros Hinst. cbv zeta.
  destruct (panningInstalled_stage pg Hinst) as [r Hr].
  unfold panPointerDown, panPointerMove, panPointerUp, clientToWorld.
  rewrite Hinst, Hr. simpl.
  split; [done|]. split; [|split; [|done]]; unfold Qdiv; ring.
Qed.

Lemma pan_keeps_grab_witness :
  px (clientToWorld stagePage
        (panPointerMove stagePage 130 90 (Viewport 40 40 (9 # 10))
           (panPointerDown stagePage 0 false 100 100 (Viewport 40 40 (9 # 10))
              (PanState false None)))
        130 90)
  == px (clientToWorld stagePage (Viewport 40 40 (9 # 10)) 100 100).
Proof.
  exact (proj1 (proj2 (pan_keeps_grab stagePage 100 100 130 90
                         (Viewport 40 40 (9 # 10)) (PanState false None)
                         eq_refl))).
Defined.

(** Dragging a node of a complete chain. [startNodeDrag] with the left
    button on a known id changes nothing yet. Every later move of the
    pointer puts the node where the pointer's displacement, divided by the
    scale, takes it from its starting position, so that the point of the
    card that was grabbed stays under the pointer; it depends on the last
    pointer position only, and changes nothing but the position of that
    node. *)
Theorem drag_follows_pointer pg cx cy cx' cy' nodeId st k e start :
  Forall ensured (effectChain st) →
  getEntryById nodeId (effectChain st) = Some (k, e) →
  position e = Some start →
  ∃ d,
    startNodeDrag pg 0 cx cy nodeId st = (st, Some d)
    ∧ let st' := nodeDragMove d cx' cy' st in
      (∃ e' p',
          effectChain st' !! k = Some e' ∧ position e' = Some p'
          ∧ (id e', name e', options e', inputs e')
            = (id e, name e, options e, inputs e)
          ∧ px p' == px start + (cx' - cx) / scale (viewportState st)
          ∧ py p' == py start + (cy' - cy) / scale (viewportState st)
          ∧ (is_Some (nodeStage pg) →
             px (clientToWorld pg (viewportState st) cx' cy') - px p'
             == px (clientToWorld pg (viewportState st) cx cy) - px start
             ∧ py (clientToWorld pg (viewportState st) cx' cy') - py p'
               == py (clientToWorld pg (viewportState st) cx cy) - py start))
      ∧ (∀ j, j ≠ k → effectChain st' !! j = effectChain st !! j)
      ∧ viewportState st' = viewportState st
      ∧ (∀ x y, nodeDragMove d cx' cy' (nodeDragMove d x y st) = st').
Proof.
  intros Hall Hfind Hpos.
  destruct (getEntryById_lookup _ _ _ _ Hfind) as [Hk Hid].
  exists (DragState k start (Point cx cy)). split.
  { unfold startNodeDrag. simpl. rewrite Hfind.
    rewrite ensurePositions_id by done. by rewrite Hk; simpl; rewrite Hpos. }
  cbv zeta. unfold nodeDragMove. simpl. rewrite Hk. simpl.
  split; [|split; [|split; [done|]]].
  - eexists _, _.
    split; [apply list_lookup_insert_eq; by eapply lookup_lt_Some|].
    split; [done|]. split; [done|]. simpl.
    split; [reflexivity|]. split; [reflexivity|].
    intros [r Hr]. unfold clientToWorld. rewrite Hr. simpl.
    split; unfold Qdiv; ring.
  - intros j Hj. by rewrite list_lookup_insert_ne.
  - intros x y. rewrite list_lookup_insert_eq by by eapply lookup_lt_Some.
    simpl. by rewrite list_insert_insert_eq.
Qed.

Lemma drag_follows_pointer_witness :
  ∃ d,
    startNodeDrag stagePage 0 10 10 (JStr "g")
      (sampleEditor [sampleNode "g" "glitch" []])
    = (sampleEditor [sampleNode "g" "glitch" []], Some d)
    ∧ ∃ e' p',
        effectChain (nodeDragMove d 19 28
                       (sampleEditor [sampleNode "g" "glitch" []])) !! 0%nat
        = Some e'
        ∧ position e' = Some p'
        ∧ px p' == 0 + (19 - 10) / (9 # 10).
Proof.
  destruct (drag_follows_pointer stagePage 10 10 19 28 (JStr "g")
              (sampleEditor [sampleNode "g" "glitch" []]) 0
              (sampleNode "g" "glitch" []) (Point 0 0))
    as (d & Hstart & (e' & p' & Hk & Hp & _ & Hx & _) & _).
  - repeat constructor; simpl; eauto.
  - reflexivity.
  - reflexivity.
  - exists d. split; [exact Hstart|].
    exists e', p'. split; [exact Hk|]. split; [exact Hp|exact Hx].
Defined.

(** ** The zoom slider *)

Lemma mathRound_inject_Z q z : q == inject_Z z → mathRound q = z.
Proof.
  intros Hq. unfold mathRound. rewrite Hq.
  unfold Qfloor, Qplus, inject_Z. simpl.
  rewrite Z.mul_1_r. symmetry.
  apply (Z.div_unique_pos _ _ _ 1%Z); lia.
Qed.

Lemma percent_scale p : percentToScale p * 100 == inject_Z p.
Proof. unfold percentToScale. field. Qed.

Lemma clampScale_percent p :
  clampScale (percentToScale p) * 100 == inject_Z (Z.min 190 (Z.max 45 p)).
Proof.
  unfold clampScale.
  assert (∀ a b : Z, inject_Z a <= inject_Z b ↔ (a <= b)%Z) as Hle.
  { intros a b. by rewrite Zle_Qle. }
  assert (45 # 100 == percentToScale 45) as H45 by reflexivity.
  assert (19 # 10 == percentToScale 190) as H190 by reflexivity.
  assert (∀ a b, percentToScale a <= percentToScale b ↔ (a <= b)%Z) as Hps.
  { intros a b. rewrite <-Hle. unfold percentToScale. split; intros H.
    - apply (Qmult_le_r _ _ (/ 100)); [reflexivity|exact H].
    - apply (Qmult_le_r _ _ (/ 100)); [reflexivity|exact H]. }
  rewrite H45, H190.
  destruct (Z.le_gt_cases p 45) as [Hp|Hp].
  - rewrite (Q.max_l (percentToScale 45)) by (apply Hps; lia).
    rewrite Q.min_r by (apply Hps; lia).
    rewrite percent_scale. by rewrite Z.max_l, Z.min_r by lia.
  - rewrite (Q.max_r (percentToScale 45)) by (apply Hps; lia).
    destruct (Z.le_gt_cases p 190) as [Hq|Hq].
    + rewrite Q.min_r by (apply Hps; lia).
      rewrite percent_scale. by rewrite Z.max_r, Z.min_r by lia.
    + rewrite Q.min_l by (apply Hps; lia).
      rewrite percent_scale. by rewrite Z.max_r, Z.min_l by lia.
Qed.

(** The conversions of the zoom slider. A percentage turned into a scale
    and back is the same percentage; a percentage from 45 to 190 gives a
    scale that [clampScale] keeps; and the percentage shown for a clamped
    scale is always from 45 to 190. After [resetViewport] it is 90. *)
Theorem percent_round_trip p st :
  scaleToPercent (percentToScale p) = p
  ∧ ((45 <= p <= 190)%Z → clampScale (percentToScale p) == percentToScale p)
  ∧ scaleToPercent (clampScale (percentToScale p)) = Z.min 190 (Z.max 45 p)
  ∧ scaleToPercent (scale (viewportState (resetViewport st))) = 90%Z.
Proof.
  split; [|split; [|split]].
  - apply mathRound_inject_Z, percent_scale.
  - intros [Hlo Hhi].
    apply (Qmult_inj_r _ _ 100); [done|].
    rewrite clampScale_percent, percent_scale.
    by rewrite Z.max_r, Z.min_r by lia.
  - apply mathRound_inject_Z, clampScale_percent.
  - reflexivity.
Qed.

(** [updateZoom] of the slider, for a slider at [percent]: the new scale is
    the clamped [percent / 100], so from 0.45 to 1.9, and shows as that
    percentage brought into 45..190. Because the scale is written before
    [clientToWorld] is asked for the centre, the offsets of the view are
    not those that keep the centre in place: on a page with a stage they
    are the old offsets plus the left and top of the stage, and without a
    stage they are unchanged. *)
Theorem sliderZoom_effect pg percent vs :
  let vs' := sliderZoom pg percent vs in
  scale vs' = clampScale (percentToScale percent)
  ∧ 45 # 100 <= scale vs' ∧ scale vs' <= 19 # 10
  ∧ scaleToPercent (scale vs') = Z.min 190 (Z.max 45 percent)
  ∧ match nodeStage pg with
    | Some r => vx vs' == vx vs + rect_left r ∧ vy vs' == vy vs + rect_top r
    | None => vx vs' = vx vs ∧ vy vs' = vy vs
    end.
Proof.
  cbv zeta.
  assert (scale (sliderZoom pg percent vs) = clampScale (percentToScale percent))
    as Hs.
  { unfold sliderZoom. by destruct (nodeStage pg). }
  rewrite Hs. split; [done|].
  split; [apply clampScale_range|]. split; [apply clampScale_range|].
  split; [apply mathRound_inject_Z, clampScale_percent|].
  unfold sliderZoom, clientToWorld.
  destruct (nodeStage pg) as [r|]; [|done]. cbn [vx vy scale px py].
  pose proof (clampScale_nonzero (percentToScale percent)) as Hnz.
  split; field; exact Hnz.
Qed.

(** ** The inline editor of a numeric option *)

Lemma mathRound_nearest x :
  inject_Z (mathRound x) <= x + (1 # 2) ∧ x - (1 # 2) < inject_Z (mathRound x).
Proof.
  unfold mathRound. split; [apply Qfloor_le|].
  pose proof (Qlt_floor (x + (1 # 2))) as Hlt.
  rewrite inject_Z_plus in Hlt.
  apply (Qplus_lt_l _ _ (inject_Z 1)).
  assert (x - (1 # 2) + inject_Z 1 == x + (1 # 2)) as -> by ring.
  exact Hlt.
Qed.

(** [finish] of the inline editor clamps softly. A committed number is
    always written to the slider: the number typed, or for an integer
    option the integer nearest to it (a half going up); it is never brought
    back into the bounds. Instead a bound that the value passes becomes the
    value, and a bound that it does not pass stays, so the value lies
    within the bounds that result. A cancelled edit, or a text that is not
    a number, writes nothing and leaves the bounds. *)
Theorem finishEdit_soft_clamp isInt commit parsed lo hi :
  let r := finishEdit isInt commit parsed (lo, hi) in
  (∀ x, commit = true → parsed = Some x →
     ∃ v, snd r = Some v
       ∧ (isInt = false → v = x)
       ∧ (isInt = true →
          ∃ z, v = inject_Z z ∧ v <= x + (1 # 2) ∧ x - (1 # 2) < v)
       ∧ (v < lo → fst (fst r) = v)
       ∧ (lo <= v → fst (fst r) = lo)
       ∧ (hi < v → snd (fst r) = v)
       ∧ (v <= hi → snd (fst r) = hi)
       ∧ fst (fst r) <= v ∧ v <= snd (fst r))
  ∧ fst (fst r) <= lo ∧ hi <= snd (fst r)
  ∧ (commit = false ∨ parsed = None → r = ((lo, hi), None)).
Proof.
  cbv zeta. split; [|split; [|split]].
  - intros x -> ->. unfold finishEdit. cbn [fst snd].
    set (v := if isInt then inject_Z (mathRound x) else x).
    exists v. split; [done|].
    split; [by intros ->|].
    split.
    { intros ->. exists (mathRound x). split; [done|]. apply mathRound_nearest. }
    destruct (Qlt_le_dec v lo) as [Hlo|Hlo], (Qlt_le_dec hi v) as [Hhi|Hhi];
      repeat split; try done; try apply Qle_refl;
      try (intros H; by apply Qlt_not_le in H);
      try (intros H; exfalso; by eapply Qlt_not_le).
  - unfold finishEdit. destruct commit, parsed as [x|]; cbn [fst snd];
      try apply Qle_refl.
    destruct (Qlt_le_dec _ lo); [by apply Qlt_le_weak|apply Qle_refl].
  - unfold finishEdit. destruct commit, parsed as [x|]; cbn [fst snd];
      try apply Qle_refl.
    destruct (Qlt_le_dec hi _); [by apply Qlt_le_weak|apply Qle_refl].
  - unfold finishEdit. intros [->| ->]; [done|by destruct commit].
Qed.

End moving.

(** ** Loading the settings *)

(** The catalogue after [loadSettings] has both sources, whatever was
    fetched: every fetched effect is still there, nothing but the two
    sources is added, a YouTube source that had to be added comes first, a
    local source that had to be added comes second, and installing the
    sources again changes nothing. *)
Theorem installSources_complete effects :
  let l := installSources effects in
  Exists (λ d, def_name d = "source") l
  ∧ Exists (λ d, def_name d = "source-local") l
  ∧ (∀ d, d ∈ effects → d ∈ l)
  ∧ (∀ d, d ∈ l → d ∈ effects ∨ d = SOURCE_YOUTUBE ∨ d = SOURCE_LOCAL)
  ∧ (¬ Exists (λ d, def_name d = "source") effects →
     head l = Some SOURCE_YOUTUBE)
  ∧ (¬ Exists (λ d, def_name d = "source-local") effects →
     l !! 1 = Some SOURCE_LOCAL)
  ∧ installSources l = l.
Proof.
  cbv zeta. unfold installSources. simpl.
  set (l1 := if bool_decide (Exists (λ d, def_name d = "source") effects)
             then effects else SOURCE_YOUTUBE :: effects).
  assert (Exists (λ d, def_name d = "source") l1) as Hsrc.
  { unfold l1. case_bool_decide as Hyt; [done|]. by left. }
  assert (∀ d, d ∈ effects → d ∈ l1) as Hin1.
  { intros d Hd. unfold l1. case_bool_decide; [done|by right]. }
  assert (∀ d, d ∈ l1 → d ∈ effects ∨ d = SOURCE_YOUTUBE) as Hout1.
  { intros d. unfold l1. case_bool_decide; [by left|].
    intros [->|Hd]%elem_of_cons; [by right|by left]. }
  assert (¬ Exists (λ d, def_name d = "source") effects →
          head l1 = Some SOURCE_YOUTUBE) as Hhead1.
  { intros Hno. unfold l1. by rewrite bool_decide_eq_false_2. }
  assert (Exists (λ d, def_name d = "source-local") effects →
          Exists (λ d, def_name d = "source-local") l1) as Hloc1.
  { intros (d & Hd & Hn)%Exists_exists. apply Exists_exists. eauto. }
  clearbody l1.
  destruct l1 as [|d0 l1]; [by apply Exists_nil in Hsrc|].
  case_bool_decide as Hloc.
  - split; [done|]. split; [done|]. split; [done|].
    split; [intros d Hd; destruct (Hout1 d Hd); eauto|].
    split; [done|]. split.
    { intros Hno. exfalso. apply Hno.
      apply Exists_exists in Hloc as (d & Hd & Hn).
      destruct (Hout1 d Hd) as [?| ->]; [|done].
      apply Exists_exists. eauto. }
    by rewrite (bool_decide_eq_true_2 _ Hsrc), (bool_decide_eq_true_2 _ Hloc).
  - unfold spliceLocal. simpl.
    assert (def_name d0 ≠ "source-local") as Hd0.
    { intros Heq. apply Hloc. by left. }
    split.
    { apply Exists_cons in Hsrc as [Hd|Hl]; [by left|].
      right. by right. }
    split; [right; by left|].
    split.
    { intros d Hd. apply Hin1 in Hd.
      apply elem_of_cons in Hd as [->|Hd]; [left|right; by right]. }
    split.
    { intros d Hd. apply elem_of_cons in Hd as [->|Hd].
      - destruct (Hout1 d0) as [?|?]; [left|eauto..].
      - apply elem_of_cons in Hd as [->|Hd]; [eauto|].
        destruct (Hout1 d) as [?|?]; [by right|eauto..]. }
    split; [done|]. split; [done|].
    assert (Exists (λ d, def_name d = "source") (d0 :: SOURCE_LOCAL :: l1))
      as Hsrc'.
    { apply Exists_cons in Hsrc as [Hd|Hl]; [by left|]. right. by right. }
    rewrite (bool_decide_eq_true_2 _ Hsrc').
    rewrite bool_decide_eq_true_2; [done|]. right. by left.
Qed.

Lemma legacyChain_fst_snd pg opts n rest ctr :
  legacyChain pg opts (n :: rest) ctr
  = (Entry (JStr (nodeIdString pg (S ctr))) (JStr n)
       (Some (default ∅ (opts !! n))) (Some []) None
       :: (legacyChain pg opts rest (S ctr)).1,
     (legacyChain pg opts rest (S ctr)).2).
Proof. simpl. by destruct (legacyChain pg opts rest (S ctr)). Qed.

(** The chain that [loadSettings] builds from the legacy fields: one node
    for each name of [active_effects], in that order, with the options
    that [effect_options] has under that name or none, no inputs and no
    position; the ids are those of consecutive calls of [makeNodeId], and
    the counter has advanced by the number of names. *)
Theorem legacyChain_shape pg opts names ctr :
  let r := legacyChain pg opts names ctr in
  name <$> r.1 = JStr <$> names
  ∧ options <$> r.1 = (λ n, Some (default ∅ (opts !! n))) <$> names
  ∧ id <$> r.1
    = (λ i, JStr (nodeIdString pg (ctr + S i))) <$> seq 0 (length names)
  ∧ Forall (λ e, inputs e = Some [] ∧ position e = None) r.1
  ∧ r.2 = ctr + length names.
Proof.
  cbv zeta. revert ctr. induction names as [|n rest IH]; intros ctr.
  - simpl. repeat split; done || lia.
  - rewrite legacyChain_fst_snd. cbn [fst snd].
    destruct (IH (S ctr)) as (Hn & Ho & Hi & Hf & Hc).
    rewrite !fmap_cons, Hn, Ho, Hi, Hc. cbn [length seq id name options].
    split; [done|]. split; [done|]. split; [|split].
    + rewrite fmap_cons. f_equal; [by rewrite Nat.add_1_r|].
      rewrite <-fmap_S_seq, <-list_fmap_compose.
      apply list_fmap_ext. intros i x _. simpl. do 2 f_equal. lia.
    + by constructor.
    + lia.
Qed.

Lemma list_find_insert_first {A} (P : A → Prop) `{∀ x, Decision (P x)}
    (l : list A) k x y :
  list_find P l = Some (k, x) → P y →
  list_find P (<[k := y]> l) = Some (k, y).
Proof.
  intros (Hk & Hx & Hbefore)%list_find_Some Hy.
  apply list_find_Some. split; [|split; [done|]].
  - apply list_lookup_insert_eq. by eapply lookup_lt_Some.
  - intros j z Hj Hlt. rewrite list_lookup_insert_ne in Hj by lia. eauto.
Qed.

Lemma list_find_app_new {A} (P : A → Prop) `{∀ x, Decision (P x)}
    (l : list A) y :
  list_find P l = None → P y →
  list_find P (l ++ [y]) = Some (length l, y).
Proof.
  intros Hnone%list_find_None Hy.
  apply list_find_Some. split; [|split; [done|]].
  - by rewrite lookup_app_r, Nat.sub_diag by lia.
  - intros j z Hj Hlt. rewrite lookup_app_l in Hj by done.
    eapply Forall_forall in Hnone; [done|]. by eapply list_elem_of_lookup_2.
Qed.

Lemma list_find_fmap_first {A} (P : A → Prop) `{∀ x, Decision (P x)}
    (f : A → A) (l : list A) k x :
  list_find P l = Some (k, x) →
  P (f x) → (∀ y, ¬ P y → f y = y) →
  list_find P (f <$> l) = Some (k, f x).
Proof.
  intros (Hk & Hx & Hbefore)%list_find_Some Hfx Hf.
  apply list_find_Some. split; [|split; [done|]].
  - by rewrite list_lookup_fmap, Hk.
  - intros j z Hj Hlt. rewrite list_lookup_fmap in Hj.
    destruct (l !! j) as [y|] eqn:Hy; [|done]. injection Hj as <-.
    rewrite Hf by eauto. eauto.
Qed.

Lemma attachLocalFile_first shared file chain :
  ∃ k e, list_find (λ e, name e = JStr "source-local")
           (attachLocalFile shared file chain) = Some (k, e)
         ∧ options e ≫= (.!! "local_file") = Some (OStr file).
Proof.
  unfold attachLocalFile.
  destruct (list_find _ chain) as [[k e]|] eqn:Hfind.
  - pose proof Hfind as (_ & Hn & _)%list_find_Some.
    destruct shared.
    + eexists k, _. split.
      * apply (list_find_fmap_first _ _ _ _ _ Hfind).
        -- by rewrite decide_True.
        -- intros y Hy. by rewrite decide_False.
      * rewrite decide_True by done. simpl. by rewrite lookup_insert_eq.
    + eexists k, _. split.
      * by eapply list_find_insert_first.
      * simpl. by rewrite lookup_insert_eq.
  - eexists _, _. split; [by apply list_find_app_new|].
    simpl. by rewrite lookup_singleton_eq.
Qed.

Lemma attachLocalFile_names shared file chain :
  ∃ extra, name <$> attachLocalFile shared file chain = (name <$> chain) ++ extra
           ∧ (extra = [] ∨ extra = [JStr "source-local"]).
Proof.
  unfold attachLocalFile.
  destruct (list_find _ chain) as [[k e]|] eqn:Hfind.
  - exists []. split; [|by left]. rewrite app_nil_r.
    destruct shared.
    + rewrite <-list_fmap_compose. apply list_fmap_ext.
      intros i y _. simpl. by case_decide.
    + apply list_find_Some in Hfind as (Hk & _ & _).
      rewrite list_fmap_insert. simpl.
      apply list_insert_id. by rewrite list_lookup_fmap, Hk.
  - exists [JStr "source-local"]. split; [|by right].
    by rewrite fmap_app.
Qed.

(** The chain that [loadSettings] builds always has something to play:
    it contains a source or source-local node, or it starts with a noise
    node. In particular it is never empty. *)
Theorem loadChain_has_source pg s ctr :
  let chain := (loadChain pg s ctr).1 in
  (Exists (λ e, name e = JStr "source" ∨ name e = JStr "source-local") chain
   ∨ name <$> head chain = Some (JStr "noise"))
  ∧ chain ≠ [].
Proof.
  cbv zeta. unfold loadChain.
  set (built := match effect_chain s with
                | Some (e :: l) => normalizeChainData pg (Some (e :: l)) ctr
                | _ => legacyChain pg (effect_options s)
                         (default [] (active_effects s)) ctr
                end).
  destruct built as [chain ctr']. cbn [fst snd].
  set (chain1 := if _ : bool then _ :: chain else chain).
  assert ((Exists (λ e, name e = JStr "source" ∨ name e = JStr "source-local")
             chain1
           ∨ name <$> head chain1 = Some (JStr "noise")) ∧ chain1 ≠ []) as H1.
  { unfold chain1. case_bool_decide as Hsrc; simpl.
    - split; [by left|]. intros ->. by apply Exists_nil in Hsrc.
    - case_bool_decide as Hnoise; simpl.
      + split; [by right|]. by intros ->.
      + split; [|done]. left. left. by left. }
  clearbody chain1.
  assert (∀ shared file,
    (Exists (λ e, name e = JStr "source" ∨ name e = JStr "source-local")
       (attachLocalFile shared file chain1)
     ∨ name <$> head (attachLocalFile shared file chain1) = Some (JStr "noise"))
    ∧ attachLocalFile shared file chain1 ≠ []) as H2.
  { intros shared file. destruct H1 as [H1 Hne].
    destruct (attachLocalFile_names shared file chain1) as (extra & Hnames & _).
    assert (∀ v, Exists (λ e, name e = v) chain1 →
                 Exists (λ e, name e = v) (attachLocalFile shared file chain1)) as Hex.
    { intros v (e & He & Hv)%Exists_exists.
      assert (v ∈ name <$> attachLocalFile shared file chain1) as Hin.
      { rewrite Hnames. apply elem_of_app. left. rewrite <-Hv.
        by apply list_elem_of_fmap_2. }
      apply list_elem_of_fmap in Hin as (e' & -> & Hin).
      apply Exists_exists. eauto. }
    split.
    - destruct H1 as [H1|H1].
      + left. apply Exists_exists in H1 as (e & He & Hn).
        assert (Exists (λ e', name e' = name e) (attachLocalFile shared file chain1))
          as (e' & He' & Hn')%Exists_exists
          by (apply Hex, Exists_exists; eauto).
        apply Exists_exists. exists e'. split; [done|]. by rewrite Hn'.
      + right. destruct chain1 as [|e0 rest]; [done|].
        destruct (attachLocalFile shared file (e0 :: rest)) as [|e1 rest'];
          [done|].
        rewrite !fmap_cons in Hnames. simpl in *. congruence.
    - intros Heq. rewrite Heq in Hnames. simpl in Hnames.
      destruct chain1; [done|]. by rewrite fmap_cons in Hnames. }
  destruct (local_file s) as [file|]; [|done].
  destruct (String.eqb file ""); [done|apply H2].
Qed.

(** A local file of the settings reaches the chain: when [local_file] is a
    non-empty string, the first source-local node of the chain that
    [loadSettings] builds has it as its [local_file] option. *)
Theorem loadChain_local_file pg s ctr file :
  local_file s = Some file → file ≠ "" →
  ∃ k e,
    list_find (λ e, name e = JStr "source-local") (loadChain pg s ctr).1
    = Some (k, e)
    ∧ options e ≫= (.!! "local_file") = Some (OStr file).
Proof.
  intros Hfile Hne. unfold loadChain. rewrite Hfile.
  destruct (match effect_chain s with
            | Some (e :: l) => normalizeChainData pg (Some (e :: l)) ctr
            | _ => legacyChain pg (effect_options s)
                     (default [] (active_effects s)) ctr
            end) as [chain ctr'].
  cbn [fst snd].
  rewrite (proj2 (String.eqb_neq file "")) by done.
  apply attachLocalFile_first.
Qed.

Lemma loadChain_local_file_witness :
  ∃ k e,
    list_find (λ e, name e = JStr "source-local")
      (loadChain samplePage
         (Settings None (Some ["glitch"]) ∅ (Some "clip.mp4")) 0).1
    = Some (k, e)
    ∧ options e ≫= (.!! "local_file") = Some (OStr "clip.mp4").
Proof.
  apply (loadChain_local_file samplePage
           (Settings None (Some ["glitch"]) ∅ (Some "clip.mp4")) 0 "clip.mp4").
  - reflexivity.
  - discriminate.
Defined.

(** ** Where a new node appears *)

(** A node added without a position, on a page with a stage, appears at
    the centre of the stage: its world position, scaled and shifted by the
    view, is half the width and half the height of the stage from its
    corner. The scale is never zero, since it is always a clamped one. *)
Theorem addEffect_centred pg n st r def :
  Forall ensured (effectChain st) →
  ¬ (n = "source-local"
     ∧ Exists (λ e, name e = JStr "source-local") (effectChain st)) →
  chosenDefinition pg n = Some def →
  nodeStage pg = Some r →
  ¬ (scale (viewportState st) == 0)%Q →
  ∃ new p,
    last (effectChain (addEffect pg n None st)) = Some new
    ∧ position new = Some p
    ∧ (px p * scale (viewportState st) + vx (viewportState st)
       == rect_width r / 2)%Q
    ∧ (py p * scale (viewportState st) + vy (viewportState st)
       == rect_height r / 2)%Q.
Proof.
  intros Hall Hno Hdef Hr Hs.
  rewrite (addEffect_exact pg n None st def) by done. simpl.
  eexists _, _. split; [apply last_snoc|]. split; [done|].
  unfold getViewportCenterPosition, clientToWorld. rewrite Hr.
  cbn [px py default]. split; field; exact Hs.
Qed.

Lemma addEffect_centred_witness :
  ∃ new p,
    last (effectChain
            (addEffect (Page true true false true (Some (Rect 10 20 800 600))
                          true false [SOURCE_YOUTUBE] (λ _, 7%N))
               "source" None (sampleEditor [])))
    = Some new
    ∧ position new = Some p
    ∧ (px p * (9 # 10) + 40 == 800 / 2)%Q
    ∧ (py p * (9 # 10) + 40 == 600 / 2)%Q.
Proof.
  apply (addEffect_centred
           (Page true true false true (Some (Rect 10 20 800 600))
              true false [SOURCE_YOUTUBE] (λ _, 7%N))
           "source" (sampleEditor []) (Rect 10 20 800 600) SOURCE_YOUTUBE).
  - constructor.
  - intros [Hn _]. discriminate Hn.
  - reflexivity.
  - reflexivity.
  - simpl. intros H. discriminate H.
Defined.
